(** * Overlay metric, circuit breaker and peer blocklist of the bee node

    A shallow embedding of
    - [pkg/swarm] distance and proximity functions,
    - [pkg/p2p/libp2p/internal/breaker],
    - [pkg/p2p/libp2p/internal/blocklist],
    together with the properties their specification states. *)

From Stdlib Require Import ZArith Zbitwise Lia Ascii.
From stdpp Require Import gmap strings list.

(** ** Go data: machine integers, time, errors *)

Module Go.
Local Open Scope Z_scope.

Definition minInt64 : Z := - 2 ^ 63.
Definition maxInt64 : Z := 2 ^ 63 - 1.

(** Signed 64-bit wrap-around ([int], [int64], [time.Duration]). *)
Definition wrap64 (z : Z) : Z := (z + 2 ^ 63) mod 2 ^ 64 - 2 ^ 63.

(** Conversion to [uint8]. *)
Definition uint8 (z : Z) : Z := z mod 256.

Definition int64_range (z : Z) : Prop := minInt64 <= z <= maxInt64.

(** [time.Duration]: a signed 64-bit count of nanoseconds. *)
Definition Duration : Type := Z.

(** [time.Minute] and [time.Hour]. *)
Definition minute : Duration := 60 * 1000000000.
Definition hour : Duration := 60 * minute.

(** [time.Time]: an instant, counted in nanoseconds from the zero instant
    [time.Time{}] (which is therefore [0]). *)
Definition Time : Type := Z.

Definition zeroTime : Time := 0.

Definition IsZero (t : Time) : bool := t =? 0.

(** [t.Sub(u)]: the difference, saturated to the range of [Duration]. *)
Definition Sub (t u : Time) : Duration :=
  if t - u <? minInt64 then minInt64
  else if maxInt64 <? t - u then maxInt64
  else t - u.

(** [t.Add(d)]. *)
Definition Add (t : Time) (d : Duration) : Time := t + d.

(** Go [error] values that the three packages tell apart. Sentinels are
    compared by identity in the source, so each is a constructor. *)
Inductive error : Type :=
  | ErrClosed          (* breaker.ErrClosed *)
  | ErrNotFound        (* storage.ErrNotFound *)
  | ErrAddressLength   (* errors.New("address length must match") *)
  | ErrOther (msg : string).

Global Instance error_eq_dec : EqDecision error.
Proof. solve_decision. Defined.

(** State passing: a computation over a state [S] with a result in [A]. *)
Definition M (S A : Type) : Type := S -> A * S.

Definition ret {S A} (a : A) : M S A := fun s => (a, s).

Definition bind {S A B} (m : M S A) (k : A -> M S B) : M S B :=
  fun s => let (a, s') := m s in k a s'.

Notation "'let*' x ':=' c 'in' k" := (bind c (fun x => k))
  (at level 10, x pattern, c at level 100, k at level 200).
Notation "c ';;' k" := (bind c (fun _ => k))
  (at level 100, k at level 200, right associativity).

Definition when {S} (c : bool) (m : M S unit) : M S unit :=
  if c then m else ret tt.

End Go.

(** ** pkg/swarm: distance and proximity *)

Module Swarm.
Import Go.
Local Open Scope Z_scope.

(** A byte is a [Z] in [0, 256); an address is a list of bytes. *)
Definition bytes : Type := list Z.

(** [MaxPO] is a constant of the package; the source comments on
    [Proximity] fix its value ([MaxPO/8 + 1 = 4], "// 31"). *)
Definition MaxPO : Z := 31.

(** Inner loop of [Proximity]:
    [for j := uint8(0); j < m; j++ { if (oxo>>(7-j))&0x01 != 0 { return .. } }] *)
Fixpoint first_set_bit (oxo j : Z) (m : nat) : option Z :=
  match m with
  | O => None
  | S m' =>
      if negb (Z.land (Z.shiftr oxo (7 - j)) 1 =? 0) then Some j
      else first_set_bit oxo (j + 1) m'
  end.

(** Outer loop: [for i := uint8(0); i < b; i++ { oxo := one[i] ^ other[i]; .. }],
    [n] counting the iterations left. *)
Fixpoint scan_bytes (one other : bytes) (i : Z) (n : nat) : option Z :=
  match n with
  | O => None
  | S n' =>
      let oxo := Z.lxor (nth (Z.to_nat i) one 0) (nth (Z.to_nat i) other 0) in
      match first_set_bit oxo 0 8 with
      | Some j => Some (uint8 (i * 8 + j))
      | None => scan_bytes one other (i + 1) n'
      end
  end.

(** The body shared by [Proximity] and [ExtendedProximity], which differ in
    the constant only. *)
Definition proximity_upto (po : Z) (one other : bytes) : Z :=
  let b := uint8 (po / 8 + 1) in
  let b := let l := uint8 (Z.of_nat (length one)) in if l <? b then l else b in
  let b := let l := uint8 (Z.of_nat (length other)) in if l <? b then l else b in
  match scan_bytes one other 0 (Z.to_nat b) with
  | Some ret => ret
  | None => po
  end.

Definition Proximity (one other : bytes) : Z := proximity_upto MaxPO one other.

(** [ExtendedPO] is a [uint8] constant of the package declared outside the
    files at hand; it is a parameter here. *)
Definition ExtendedProximity (ExtendedPO : Z) (one other : bytes) : Z :=
  proximity_upto ExtendedPO one other.

(** [for i, addr := range x { c[i] = addr ^ y[i] }], run after the length
    guard, so that [y] has an element for every element of [x]. *)
Fixpoint xor_bytes (x y : bytes) : bytes :=
  match x, y with
  | addr :: x', yi :: y' => Z.lxor addr yi :: xor_bytes x' y'
  | _, _ => []
  end.

Definition DistanceRaw (x y : bytes) : option bytes * option error :=
  if negb (length x =? length y)%nat then (None, Some ErrAddressLength)
  else (Some (xor_bytes x y), None).

(** [big.Int.SetBytes]: the big-endian unsigned value of a byte slice. *)
Definition SetBytes (bs : bytes) : Z :=
  fold_left (fun acc b => acc * 256 + b) bs 0.

Definition Distance (x y : bytes) : option Z * option error :=
  match DistanceRaw x y with
  | (_, Some err) => (None, Some err)
  | (Some distanceBytes, None) => (Some (SetBytes distanceBytes), None)
  | (None, None) => (Some 0, None)
  end.

(** Loop of [DistanceCmp], run after the length guard: the three slices are
    walked in step. *)
Fixpoint cmp_bytes (a x y : bytes) : Z :=
  match a, x, y with
  | ai :: a', xi :: x', yi :: y' =>
      let dx := Z.lxor xi ai in
      let dy := Z.lxor yi ai in
      if dx =? dy then cmp_bytes a' x' y'
      else if dx <? dy then 1
      else -1
  | _, _, _ => 0
  end.

Definition DistanceCmp (a x y : bytes) : Z * option error :=
  if negb (length a =? length x)%nat || negb (length a =? length y)%nat
  then (0, Some ErrAddressLength)
  else (cmp_bytes a x y, None).

(** The elements of a Go [[]byte] are bytes. *)
Definition valid_bytes (bs : bytes) : Prop := Forall (fun b => 0 <= b < 256) bs.

End Swarm.

(** ** pkg/p2p/libp2p/internal/breaker *)

Module Breaker.
Import Go.
Local Open Scope Z_scope.

(** Defaults. *)
Definition limit_default : Z := 100.
Definition failInterval_default : Duration := 30 * minute.
Definition maxBackoff_default : Duration := hour.
Definition backoff_default : Duration := 2 * minute.

Record breaker : Type := {
  limit : Z;
  consFailedCalls : Z;
  firstFailedTimestamp : Time;
  closedTimestamp : Time;
  backoff : Duration;
  maxBackoff : Duration;
  failInterval : Duration
}.

Record Options : Type := {
  Limit : Z;
  FailInterval : Duration;
  StartBackoff : Duration;
  MaxBackoff : Duration
}.

Definition NewBreaker (o : Options) : breaker :=
  {| limit := if Limit o =? 0 then limit_default else Limit o;
     consFailedCalls := 0;
     firstFailedTimestamp := zeroTime;
     closedTimestamp := zeroTime;
     backoff := if StartBackoff o =? 0 then backoff_default else StartBackoff o;
     maxBackoff := if MaxBackoff o =? 0 then maxBackoff_default else MaxBackoff o;
     failInterval := if FailInterval o =? 0 then failInterval_default else FailInterval o |}.

(** The state a call runs in: the breaker, the package clock [timeNow]
    (the [n]-th reading of it is [clock n]; [ticks] readings were taken so
    far) and the state [U] that the guarded operation works on. The mutex
    serialises the bookkeeping; one caller at a time is modelled. *)
Record world (U : Type) : Type := {
  brk : breaker;
  clock : nat -> Time;
  ticks : nat;
  user : U
}.
Arguments brk {U} _.
Arguments clock {U} _.
Arguments ticks {U} _.
Arguments user {U} _.

Definition getBreaker {U} : M (world U) breaker := fun w => (brk w, w).

Definition with_breaker {U} (b : breaker) (w : world U) : world U :=
  {| brk := b; clock := clock w; ticks := ticks w; user := user w |}.

Definition putBreaker {U} (b : breaker) : M (world U) unit :=
  fun w => (tt, with_breaker b w).

(** One reading of [timeNow()]. *)
Definition timeNow {U} : M (world U) Time :=
  fun w => (clock w (ticks w),
            {| brk := brk w; clock := clock w; ticks := S (ticks w); user := user w |}).

(** The guarded operation [f func() error], acting on the state [U]. *)
Definition operation (U : Type) : Type := U -> option error * U.

Definition call {U} (f : operation U) : M (world U) (option error) :=
  fun w => let (r, u) := f (user w) in
           (r, {| brk := brk w; clock := clock w; ticks := ticks w; user := u |}).

Definition set_failed (n : Z) (first : Time) (b : breaker) : breaker :=
  {| limit := limit b; consFailedCalls := n; firstFailedTimestamp := first;
     closedTimestamp := closedTimestamp b; backoff := backoff b;
     maxBackoff := maxBackoff b; failInterval := failInterval b |}.

Definition set_closedTimestamp (t : Time) (b : breaker) : breaker :=
  {| limit := limit b; consFailedCalls := consFailedCalls b;
     firstFailedTimestamp := firstFailedTimestamp b;
     closedTimestamp := t; backoff := backoff b;
     maxBackoff := maxBackoff b; failInterval := failInterval b |}.

Definition set_backoff (d : Duration) (b : breaker) : breaker :=
  {| limit := limit b; consFailedCalls := consFailedCalls b;
     firstFailedTimestamp := firstFailedTimestamp b;
     closedTimestamp := closedTimestamp b; backoff := d;
     maxBackoff := maxBackoff b; failInterval := failInterval b |}.

Definition modify {U} (g : breaker -> breaker) : M (world U) unit :=
  let* b := getBreaker in putBreaker (g b).

(** [b.consFailedCalls = 0; b.firstFailedTimestamp = time.Time{}] *)
Definition resetFailed_state (b : breaker) : breaker := set_failed 0 zeroTime b.

Definition resetFailed {U} : M (world U) unit := modify resetFailed_state.

(** The new value of [b.backoff] once the cool-down has elapsed:
    [if newBackoff := b.backoff * 2; newBackoff <= b.maxBackoff { newBackoff } else { b.maxBackoff }] *)
Definition next_backoff (b : breaker) : Duration :=
  let newBackoff := wrap64 (backoff b * 2) in
  if newBackoff <=? maxBackoff b then newBackoff else maxBackoff b.

Definition beforef {U} : M (world U) (option error) :=
  let* b := getBreaker in
  let* rejected :=
    (if consFailedCalls b >=? limit b then
       let* closed :=
         (if IsZero (closedTimestamp b) then ret true
          else let* now := timeNow in
               ret (Sub now (closedTimestamp b) <? backoff b)) in
       if closed : bool then ret (Some ErrClosed)
       else
         resetFailed ;;
         modify (fun b => set_backoff (next_backoff b) b) ;;
         ret None
     else ret None) in
  match rejected with
  | Some err => ret (Some err)
  | None =>
      let* b := getBreaker in
      let* stale :=
        (if negb (IsZero (firstFailedTimestamp b)) then
           let* now := timeNow in
           ret (Sub now (firstFailedTimestamp b) >=? failInterval b)
         else ret false) in
      when stale resetFailed ;;
      ret None
  end.

Definition afterf {U} (err : option error) : M (world U) (option error) :=
  match err with
  | Some e =>
      let* b := getBreaker in
      when (consFailedCalls b =? 0)
        (let* now := timeNow in
         modify (fun b => set_failed (consFailedCalls b) now b)) ;;
      modify (fun b => set_failed (wrap64 (consFailedCalls b + 1))
                                  (firstFailedTimestamp b) b) ;;
      let* b := getBreaker in
      when (consFailedCalls b =? limit b)
        (let* now := timeNow in modify (set_closedTimestamp now)) ;;
      ret (Some e)
  | None =>
      resetFailed ;;
      ret None
  end.

Definition Execute {U} (f : operation U) : M (world U) (option error) :=
  let* err := beforef in
  match err with
  | Some e => ret (Some e)
  | None => let* r := call f in afterf r
  end.

Definition ClosedUntil {U} : M (world U) Time :=
  let* b := getBreaker in
  if consFailedCalls b >=? limit b then ret (Add (closedTimestamp b) (backoff b))
  else timeNow.

(** A caller's sequence of calls on one breaker. *)
Inductive invocation (U : Type) : Type :=
  | CallExecute (f : operation U)
  | CallClosedUntil.
Arguments CallExecute {U} f.
Arguments CallClosedUntil {U}.

Definition invoke {U} (c : invocation U) : M (world U) unit :=
  match c with
  | CallExecute f => Execute f ;; ret tt
  | CallClosedUntil => ClosedUntil ;; ret tt
  end.

Fixpoint run {U} (cs : list (invocation U)) : M (world U) unit :=
  match cs with
  | [] => ret tt
  | c :: cs' => invoke c ;; run cs'
  end.

(** The state right after construction. *)
Definition start {U} (o : Options) (clk : nat -> Time) (u : U) : world U :=
  {| brk := NewBreaker o; clock := clk; ticks := 0; user := u |}.

(** The backoff is within its cap, and twice the cap fits [Duration]. *)
Definition backoff_bounded (b : breaker) : Prop :=
  0 <= backoff b <= maxBackoff b /\ maxBackoff b < 2 ^ 62.

(** *** Sample runs *)

(** An operation that fails, and one that succeeds; each counts its
    invocations in the state it works on. *)
Definition failing : operation nat :=
  fun n => (Some (ErrOther "dial failed"), S n).

Definition succeeding : operation nat :=
  fun n => (None, S n).

(** The scenario of the specification:
    [limit=2, failureWindow=1h, initialBackoff=1m, maxBackoff=4m]. *)
Definition scenario_options : Options :=
  {| Limit := 2; FailInterval := hour; StartBackoff := minute;
     MaxBackoff := 4 * minute |}.

(** A clock whose readings are one second apart. *)
Definition seconds_clock : nat -> Time :=
  fun n => 1000000000 * (1 + Z.of_nat n).

(** Two failed calls in a row. *)
Definition scenario_tripped : world nat :=
  snd (run [CallExecute failing; CallExecute failing]
           (start scenario_options seconds_clock O)).

(** The same breaker, seen two minutes later. *)
Definition scenario_cooled : world nat :=
  {| brk := brk scenario_tripped;
     clock := fun n => seconds_clock n + 2 * minute;
     ticks := ticks scenario_tripped;
     user := user scenario_tripped |}.

(** One failed call, seen two hours later. *)
Definition scenario_stale : world nat :=
  let w := snd (Execute failing (start scenario_options seconds_clock O)) in
  {| brk := brk w; clock := fun n => seconds_clock n + 2 * hour;
     ticks := ticks w; user := user w |}.

(** A breaker whose backoff is large: the first call fails and trips it
    (limit 1), the next one comes [2^62] nanoseconds later. *)
Definition huge_options : Options :=
  {| Limit := 1; FailInterval := 0; StartBackoff := 2 ^ 62;
     MaxBackoff := maxInt64 |}.

Definition huge_clock : nat -> Time :=
  fun n => if (n <? 2)%nat then 1000 else 1000 + 2 ^ 62.

Definition huge_tripped : world nat :=
  snd (Execute failing (start huge_options huge_clock O)).

(** A breaker built with a negative initial backoff. *)
Definition negative_options : Options :=
  {| Limit := 1; FailInterval := 0; StartBackoff := -1; MaxBackoff := 1 |}.

Definition negative_tripped : world nat :=
  snd (Execute failing (start negative_options seconds_clock O)).

(** All options left unset: the defaults apply. *)
Definition default_options : Options :=
  {| Limit := 0; FailInterval := 0; StartBackoff := 0; MaxBackoff := 0 |}.

(** *** What a run maintains *)

(** The breaker [afterf] leaves behind after a failure, when the clock
    stands at reading [t]: the count is incremented, a fresh streak is
    stamped, and the trip is stamped when the count reaches the limit. *)
Definition after_failure (clk : nat -> Time) (t : nat) (b : breaker) : breaker :=
  let fresh := consFailedCalls b =? 0 in
  let n := wrap64 (consFailedCalls b + 1) in
  {| limit := limit b;
     consFailedCalls := n;
     firstFailedTimestamp := if fresh then clk t else firstFailedTimestamp b;
     closedTimestamp :=
       if n =? limit b then clk (if fresh then S t else t) else closedTimestamp b;
     backoff := backoff b; maxBackoff := maxBackoff b; failInterval := failInterval b |}.




(** A breaker built with a negative limit. *)
Definition negative_limit_options : Options :=
  {| Limit := -1; FailInterval := 0; StartBackoff := 0; MaxBackoff := 0 |}.


End Breaker.

(** ** pkg/p2p/libp2p/internal/blocklist *)

Module Blocklist.
Import Go.
Local Open Scope Z_scope.

Definition keyPrefix : string := "blocklist-".

(** *** Addresses and their hexadecimal rendering *)

Definition hexDigit (n : Z) : Ascii.ascii :=
  nth (Z.to_nat n) (String.list_ascii_of_string "0123456789abcdef") "0"%char.

Definition fromHexChar (c : Ascii.ascii) : option Z :=
  let n := Z.of_N (Ascii.N_of_ascii c) in
  if (48 <=? n) && (n <=? 57) then Some (n - 48)
  else if (97 <=? n) && (n <=? 102) then Some (n - 97 + 10)
  else if (65 <=? n) && (n <=? 70) then Some (n - 65 + 10)
  else None.

Fixpoint encodeHex (bs : list Z) : string :=
  match bs with
  | [] => EmptyString
  | b :: bs' =>
      String (hexDigit (Z.shiftr b 4)) (String (hexDigit (Z.land b 15)) (encodeHex bs'))
  end.

Definition errInvalidByte : error := ErrOther "encoding/hex: invalid byte".
Definition errOddLength : error := ErrOther "encoding/hex: odd length hex string".

Fixpoint decodeHex (s : string) : list Z * option error :=
  match s with
  | EmptyString => ([], None)
  | String p EmptyString =>
      match fromHexChar p with
      | None => ([], Some errInvalidByte)
      | Some _ => ([], Some errOddLength)
      end
  | String p (String q rest) =>
      match fromHexChar p, fromHexChar q with
      | Some a, Some b =>
          let (bs, err) := decodeHex rest in
          (Z.lor (Z.shiftl a 4) b :: bs, err)
      | _, _ => ([], Some errInvalidByte)
      end
  end.

(** Modelled from the spec: [swarm.Address] with its [String] method and
    [swarm.ParseHexAddress], which live outside the files at hand. An
    address is a byte sequence rendered as a lowercase hexadecimal string;
    parsing fails on text that is not hexadecimal. *)
Definition Address : Type := list Z.

Definition Address_String (a : Address) : string := encodeHex a.

Definition ParseHexAddress (s : string) : Address * option error :=
  match decodeHex s with
  | (_, Some err) => ([], Some err)
  | (b, None) => (b, None)
  end.

(** [p2p.Peer] *)
Record Peer : Type := { PeerAddress : Address }.

(** *** Entries *)

(** The text kept in the [Duration] field of an entry. [Add] writes
    [duration.String()] and [get] reads it back with [time.ParseDuration],
    which inverts [String]; a text is therefore represented by the duration
    it denotes, or is text that [ParseDuration] rejects. (The rendering of
    the least [Duration], which some releases of the library refuse to
    parse back, is not told apart.) *)
Inductive durationText : Type :=
  | DurationText (d : Go.Duration)
  | MalformedText (s : string).

Definition Duration_String (d : Go.Duration) : durationText := DurationText d.

Definition ParseDuration (t : durationText) : Go.Duration * option error :=
  match t with
  | DurationText d => (d, None)
  | MalformedText s => (0, Some (ErrOther "time: invalid duration"))
  end.

Record entry : Type := {
  Timestamp : Time;
  Duration : durationText
}.

Definition zeroEntry : entry :=
  {| Timestamp := zeroTime; Duration := MalformedText "" |}.

(** *** The state store *)

(** Modelled from the spec: [storage.StateStorer], the persistent store the
    blocklist is given (get, put and delete by key, iteration over the keys
    that start with a prefix; a lookup miss is the not-found error, any
    operation may fail with another error). [items] is what is stored;
    the other fields say which operations fail, and with which error. *)
Record StateStorer : Type := {
  items : gmap string entry;
  getErr : string -> option error;
  putErr : string -> option error;
  deleteErr : string -> option error;
  iterateErr : option error
}.

Definition set_items (m : gmap string entry) (s : StateStorer) : StateStorer :=
  {| items := m; getErr := getErr s; putErr := putErr s;
     deleteErr := deleteErr s; iterateErr := iterateErr s |}.

(** The state a call runs in: the store and the package clock [timeNow]. *)
Record world : Type := {
  store : StateStorer;
  clock : nat -> Time;
  ticks : nat
}.

Definition set_store (s : StateStorer) (w : world) : world :=
  {| store := s; clock := clock w; ticks := ticks w |}.

Definition timeNow : M world Time :=
  fun w => (clock w (ticks w),
            {| store := store w; clock := clock w; ticks := S (ticks w) |}).

Definition store_Get (key : string) : M world (entry * option error) :=
  fun w =>
    match getErr (store w) key with
    | Some err => ((zeroEntry, Some err), w)
    | None =>
        match items (store w) !! key with
        | Some e => ((e, None), w)
        | None => ((zeroEntry, Some ErrNotFound), w)
        end
    end.

Definition store_Put (key : string) (e : entry) : M world (option error) :=
  fun w =>
    match putErr (store w) key with
    | Some err => (Some err, w)
    | None => (None, set_store (set_items (<[key := e]> (items (store w))) (store w)) w)
    end.

Definition store_Delete (key : string) : M world (option error) :=
  fun w =>
    match deleteErr (store w) key with
    | Some err => (Some err, w)
    | None => (None, set_store (set_items (delete key (items (store w))) (store w)) w)
    end.

(** The visitor handed to [Iterate] is a closure: it runs on the world and
    on the variables [L] it captures. *)
Definition lift {L A} (m : M world A) : M (world * L) A :=
  fun s => let (a, w') := m (fst s) in (a, (w', snd s)).

Definition modifyLocal {L} (g : L -> L) : M (world * L) unit :=
  fun s => (tt, (fst s, g (snd s))).

Definition visitor (L : Type) : Type :=
  string -> entry -> M (world * L) (bool * option error).

Fixpoint iterate_entries {L} (iterFunc : visitor L) (kvs : list (string * entry))
  : M (world * L) (option error) :=
  match kvs with
  | [] => ret None
  | (k, v) :: rest =>
      let* (stop, err) := iterFunc k v in
      match err with
      | Some e => ret (Some e)
      | None => if stop : bool then ret None else iterate_entries iterFunc rest
      end
  end.

(** The entries [Iterate] visits for a prefix. *)
Definition entries_with_prefix (prefix : string) (s : StateStorer)
  : list (string * entry) :=
  filter (fun kv => String.prefix prefix (fst kv) = true) (map_to_list (items s)).

Definition store_Iterate {L} (prefix : string) (iterFunc : visitor L)
  : M (world * L) (option error) :=
  fun s =>
    let kvs := entries_with_prefix prefix (store (fst s)) in
    let (err, s') := iterate_entries iterFunc kvs s in
    match err with
    | Some e => (Some e, s')
    | None => (iterateErr (store (fst s)), s')
    end.

(** *** The blocklist *)

Definition HasPrefix (s prefix : string) : bool := String.prefix prefix s.

Definition TrimPrefix (s prefix : string) : string :=
  if HasPrefix s prefix
  then String.substring (String.length prefix)
         (String.length s - String.length prefix)%nat s
  else s.

Definition generateKey (overlay : Address) : string :=
  keyPrefix +:+ Address_String overlay.

Definition unmarshalKey (s : string) : Address * option error :=
  let addr := TrimPrefix s keyPrefix in
  ParseHexAddress addr.

Definition get (key : string) : M world (Time * Go.Duration * option error) :=
  let* (e, err) := store_Get key in
  match err with
  | Some err => ret (zeroTime, -1, Some err)
  | None =>
      let (duration, err) := ParseDuration (Duration e) in
      match err with
      | Some err => ret (zeroTime, -1, Some err)
      | None => ret (Timestamp e, duration, None)
      end
  end.

(** [timeNow().Sub(timestamp) > duration && duration != 0] *)
Definition expired (now timestamp : Time) (duration : Go.Duration) : bool :=
  (Sub now timestamp >? duration) && negb (duration =? 0).

Definition Exists (overlay : Address) : M world (bool * option error) :=
  let key := generateKey overlay in
  let* (timestamp, duration, err) := get key in
  match err with
  | Some err =>
      if bool_decide (err = ErrNotFound) then ret (false, None)
      else ret (false, Some err)
  | None =>
      let* now := timeNow in
      if expired now timestamp duration then
        store_Delete key ;;
        ret (false, None)
      else ret (true, None)
  end.

(** The tail of [Add], reached when [get] found an entry or reported a
    lookup miss: [if duration < d && duration != 0 || d == 0 { duration = d }]
    and the [Put]. *)
Definition add_entry (key : string) (d duration : Go.Duration) : M world (option error) :=
  let duration :=
    if (duration <? d) && negb (duration =? 0) || (d =? 0) then d else duration in
  let* now := timeNow in
  store_Put key {| Timestamp := now; Duration := Duration_String duration |}.

Definition Add (overlay : Address) (duration : Go.Duration) : M world (option error) :=
  let key := generateKey overlay in
  let* (_, d, err) := get key in
  match err with
  | Some err' =>
      if negb (bool_decide (err' = ErrNotFound)) then ret (Some err')
      else add_entry key d duration
  | None => add_entry key d duration
  end.

Definition visitPeer : visitor (list Peer) :=
  fun k v =>
    if negb (HasPrefix k keyPrefix) then ret (true, None)
    else
      let (addr, err) := unmarshalKey k in
      match err with
      | Some err => ret (true, Some err)
      | None =>
          let* (t, d, err) := lift (get k) in
          match err with
          | Some err => ret (true, Some err)
          | None =>
              let* now := lift timeNow in
              if expired now t d then ret (false, None)
              else
                modifyLocal (fun peers => peers ++ [{| PeerAddress := addr |}]) ;;
                ret (false, None)
          end
      end.

Definition Peers : M world (list Peer * option error) :=
  fun w =>
    let (err, s) := store_Iterate keyPrefix visitPeer (w, []) in
    match err with
    | Some err => (([], Some err), fst s)
    | None => ((snd s, None), fst s)
    end.

(** *** What the store holds, as the blocklist reads it *)

Definition world_of (s : StateStorer) : world :=
  {| store := s; clock := fun _ => zeroTime; ticks := O |}.

(** The outcome of [get] for a key; it depends on the store alone. *)
Definition stored (s : StateStorer) (key : string) : Time * Go.Duration * option error :=
  fst (get key (world_of s)).

(** The duration of the entry [get] finds under a key, if it finds one. *)
Definition existing_duration (s : StateStorer) (key : string) : option Go.Duration :=
  match stored s key with
  | (_, d, None) => Some d
  | (_, _, Some _) => None
  end.

(** The duration [Add] is specified to store: the existing duration when it
    is zero (indefinite) or when the requested one is nonzero and strictly
    less than it; the requested duration otherwise. *)
Definition effective_duration (existing : option Go.Duration) (requested : Go.Duration)
  : Go.Duration :=
  match existing with
  | Some d =>
      if (d =? 0) || (negb (requested =? 0) && (requested <? d)) then d else requested
  | None => requested
  end.

(** The peer list as specified: the keys are taken in iteration order, the
    [n]-th one is judged at the [n]-th clock reading, and its address is
    listed unless its entry is expired then. *)
Fixpoint unexpired_peers (s : StateStorer) (clk : nat -> Time) (t : nat)
    (keys : list string) : list Peer :=
  match keys with
  | [] => []
  | k :: rest =>
      let '(ts, d, _) := stored s k in
      if expired (clk t) ts d then unexpired_peers s clk (S t) rest
      else {| PeerAddress := fst (unmarshalKey k) |} :: unexpired_peers s clk (S t) rest
  end.

(** The first failure met when the keys are visited in order: a key that is
    not the rendering of an address, or an entry that cannot be read. *)
Fixpoint first_visit_error (s : StateStorer) (keys : list string) : option error :=
  match keys with
  | [] => None
  | k :: rest =>
      match snd (unmarshalKey k) with
      | Some e => Some e
      | None =>
          match snd (stored s k) with
          | Some e => Some e
          | None => first_visit_error s rest
          end
      end
  end.

(** *** Sample stores *)

Definition malformed_entry : entry :=
  {| Timestamp := zeroTime; Duration := MalformedText "ten minutes" |}.

Definition no_failure : string -> option error := fun _ => None.

Definition emptyStore : StateStorer :=
  {| items := ∅; getErr := no_failure; putErr := no_failure;
     deleteErr := no_failure; iterateErr := None |}.

(** A world whose clock stands still at [t], as under a mocked [timeNow]. *)
Definition world_at (s : StateStorer) (t : Time) : world :=
  {| store := s; clock := fun _ => t; ticks := O |}.

Definition t0 : Time := 1600000000 * 1000000000.

Definition peerA : Address := [171; 205].
Definition peerB : Address := [1; 2].

(** [peerA] blocked for ten minutes at [t0]. *)
Definition store_A10 : StateStorer :=
  store (snd (Add peerA (10 * minute) (world_at emptyStore t0))).

(** [peerA] blocked for ten minutes and [peerB] indefinitely, at [t0]. *)
Definition store_A10_B0 : StateStorer :=
  store (snd (Add peerB 0 (world_at store_A10 t0))).




(** A store whose entry for [peerA] holds a duration that does not parse. *)
Definition store_malformed : StateStorer :=
  {| items := {[ generateKey peerA := malformed_entry ]};
     getErr := no_failure; putErr := no_failure; deleteErr := no_failure;
     iterateErr := None |}.


(** The elements of an overlay address are bytes. *)
Definition valid_address (a : Address) : Prop := Forall (fun b => 0 <= b < 256) a.

End Blocklist.

(** * Properties *)

(** ** Machine arithmetic and time *)

Module GoFacts.
Import Go.
Local Open Scope Z_scope.

Lemma wrap64_small z : int64_range z -> wrap64 z = z.
Proof.
  unfold int64_range, minInt64, maxInt64, wrap64. intros H.
  rewrite Z.mod_small; lia.
Qed.

Lemma wrap64_range z : int64_range (wrap64 z).
Proof.
  unfold int64_range, minInt64, maxInt64, wrap64.
  pose proof (Z.mod_pos_bound (z + 2 ^ 63) (2 ^ 64) ltac:(lia)). lia.
Qed.

Lemma Sub_range t u : int64_range (Sub t u).
Proof.
  unfold int64_range, Sub, minInt64, maxInt64.
  destruct (Z.ltb_spec (t - u) (- 2 ^ 63)); [lia|].
  destruct (Z.ltb_spec (2 ^ 63 - 1) (t - u)); lia.
Qed.

Lemma Sub_exact t u : int64_range (t - u) -> Sub t u = t - u.
Proof.
  unfold int64_range, Sub, minInt64, maxInt64. intros H.
  destruct (Z.ltb_spec (t - u) (- 2 ^ 63)); [lia|].
  destruct (Z.ltb_spec (2 ^ 63 - 1) (t - u)); lia.
Qed.

Lemma Sub_self t : Sub t t = 0.
Proof. rewrite Sub_exact; unfold int64_range, minInt64, maxInt64; lia. Qed.

Lemma bind_run {S A B} (m : M S A) (k : A -> M S B) (s : S) :
  bind m k s = k (fst (m s)) (snd (m s)).
Proof. unfold bind. destruct (m s). reflexivity. Qed.

Lemma uint8_range z : 0 <= uint8 z < 256.
Proof. unfold uint8. apply Z.mod_pos_bound. lia. Qed.

End GoFacts.

(** ** Overlay metric *)

Module SwarmSpec.
Import Go Swarm GoFacts.
Local Open Scope Z_scope.

Lemma lxor_same_mask x y a : Z.lxor x a = Z.lxor y a <-> x = y.
Proof.
  split; [|congruence]. intros H.
  assert (E : Z.lxor (Z.lxor x a) a = Z.lxor (Z.lxor y a) a) by congruence.
  rewrite !Z.lxor_assoc, Z.lxor_nilpotent, !Z.lxor_0_r in E. exact E.
Qed.

Lemma cmp_bytes_swap a : forall x y, cmp_bytes a x y = - cmp_bytes a y x.
Proof.
  induction a as [|ai a IH]; intros [|xi x] [|yi y]; simpl; try reflexivity.
  destruct (Z.eqb_spec (Z.lxor xi ai) (Z.lxor yi ai)) as [E|E].
  - rewrite <- E, Z.eqb_refl. apply IH.
  - destruct (Z.eqb_spec (Z.lxor yi ai) (Z.lxor xi ai)); [congruence|].
    destruct (Z.ltb_spec (Z.lxor xi ai) (Z.lxor yi ai));
      destruct (Z.ltb_spec (Z.lxor yi ai) (Z.lxor xi ai)); lia.
Qed.

Lemma cmp_bytes_same a : forall x, cmp_bytes a x x = 0.
Proof.
  induction a as [|ai a IH]; intros [|xi x]; simpl; try reflexivity.
  rewrite Z.eqb_refl. apply IH.
Qed.

Lemma cmp_bytes_zero a : forall x y,
  length a = length x -> length a = length y -> cmp_bytes a x y = 0 -> x = y.
Proof.
  induction a as [|ai a IH]; intros [|xi x] [|yi y] Hx Hy; simpl in *;
    try discriminate; try reflexivity.
  destruct (Z.eqb_spec (Z.lxor xi ai) (Z.lxor yi ai)) as [E|E].
  - intros H. apply lxor_same_mask in E. subst yi. f_equal.
    apply IH; [congruence | congruence | exact H].
  - destruct (Z.ltb_spec (Z.lxor xi ai) (Z.lxor yi ai)); discriminate.
Qed.

Lemma DistanceCmp_equal_length a x y :
  length a = length x -> length a = length y ->
  DistanceCmp a x y = (cmp_bytes a x y, None).
Proof.
  intros Hx Hy. unfold DistanceCmp.
  rewrite <- Hx, <- Hy, Nat.eqb_refl. reflexivity.
Qed.

(** C7. For equal-length [a], [x], [y], [DistanceCmp] succeeds with a value
    [c] such that comparing in the other order gives [- c], comparing [x]
    with itself gives [0], and [c = 0] only when [x] and [y] are the same
    address. *)
Theorem DistanceCmp_sign_laws (a x y : bytes) :
  length a = length x -> length a = length y ->
  exists c : Z,
    DistanceCmp a x y = (c, None) /\
    DistanceCmp a y x = (- c, None) /\
    DistanceCmp a x x = (0, None) /\
    (c = 0 -> x = y).
Proof.
  intros Hx Hy. exists (cmp_bytes a x y).
  rewrite !DistanceCmp_equal_length by assumption.
  repeat split.
  - f_equal. rewrite (cmp_bytes_swap a y x). lia.
  - f_equal. apply cmp_bytes_same.
  - apply cmp_bytes_zero; assumption.
Qed.

Lemma DistanceCmp_sign_laws_witness :
  exists c : Z,
    DistanceCmp [10; 20] [11; 20] [10; 21] = (c, None) /\
    DistanceCmp [10; 20] [10; 21] [11; 20] = (- c, None) /\
    DistanceCmp [10; 20] [11; 20] [11; 20] = (0, None) /\
    (c = 0 -> [11; 20] = [10; 21]).
Proof.
  apply (DistanceCmp_sign_laws [10; 20] [11; 20] [10; 21]); reflexivity.
Defined.

Lemma first_set_bit_bounds oxo m : forall j j',
  first_set_bit oxo j m = Some j' -> j <= j' < j + Z.of_nat m.
Proof.
  induction m as [|m IH]; intros j j'; simpl; [discriminate|].
  destruct (negb _).
  - intros [= <-]. lia.
  - intros H. apply IH in H. lia.
Qed.

Lemma scan_bytes_bounds one other n : forall i r,
  0 <= i -> scan_bytes one other i n = Some r ->
  0 <= r /\ (i + Z.of_nat n <= 32 -> r < 8 * (i + Z.of_nat n)).
Proof.
  induction n as [|n IH]; intros i r Hi; cbn [scan_bytes]; [discriminate|].
  destruct (first_set_bit _ 0 8) as [j|] eqn:Hj.
  - intros [= <-]. apply first_set_bit_bounds in Hj.
    pose proof (uint8_range (i * 8 + j)). split; [lia|]. intros Hb.
    unfold uint8. rewrite Z.mod_small; lia.
  - intros H. apply IH in H; [|lia]. split; [tauto|]. intros Hb.
    destruct H as [_ H]. lia.
Qed.

Lemma proximity_upto_range po one other :
  0 <= po < 256 ->
  0 <= proximity_upto po one other < 8 * (po / 8 + 1).
Proof.
  intros Hpo. unfold proximity_upto.
  assert (Hq : 0 <= po / 8 < 32).
  { split; [apply Z.div_pos; lia|]. apply Z.div_lt_upper_bound; lia. }
  assert (Hb : uint8 (po / 8 + 1) = po / 8 + 1).
  { unfold uint8. apply Z.mod_small. lia. }
  rewrite Hb.
  set (b1 := if uint8 (Z.of_nat (length one)) <? po / 8 + 1
             then uint8 (Z.of_nat (length one)) else po / 8 + 1).
  set (b2 := if uint8 (Z.of_nat (length other)) <? b1
             then uint8 (Z.of_nat (length other)) else b1).
  assert (H2 : 0 <= b2 <= po / 8 + 1).
  { pose proof (uint8_range (Z.of_nat (length one))).
    pose proof (uint8_range (Z.of_nat (length other))).
    subst b2 b1.
    destruct (Z.ltb_spec (uint8 (Z.of_nat (length one))) (po / 8 + 1));
      match goal with |- context [?a <? ?b] => destruct (Z.ltb_spec a b) end; lia. }
  destruct (scan_bytes one other 0 (Z.to_nat b2)) as [r|] eqn:Hs.
  - apply scan_bytes_bounds in Hs; [|lia]. rewrite Z2Nat.id in Hs by lia.
    destruct Hs as [Hr Hlt]. split; [exact Hr|].
    assert (r < 8 * (0 + b2)) by (apply Hlt; lia). lia.
  - pose proof (Z.mul_div_le po 8 ltac:(lia)).
    pose proof (Z.mod_pos_bound po 8 ltac:(lia)).
    pose proof (Z.div_mod po 8 ltac:(lia)). lia.
Qed.

(** C6 (as amended). When two inputs differ in length, [DistanceRaw],
    [Distance] and [DistanceCmp] (whichever two of its three arguments
    differ) return the length-mismatch error. [Proximity] and
    [ExtendedProximity] have no error result: on the same inputs they
    return a proximity order, at most [MaxPO] for [Proximity] and below
    [8 * (ExtendedPO / 8 + 1)] for [ExtendedProximity]. *)
Theorem length_mismatch_outcomes (ExtendedPO : Z) (a x y : bytes) :
  0 <= ExtendedPO < 256 ->
  length x <> length y ->
  DistanceRaw x y = (None, Some ErrAddressLength) /\
  Distance x y = (None, Some ErrAddressLength) /\
  DistanceCmp a x y = (0, Some ErrAddressLength) /\
  DistanceCmp x a y = (0, Some ErrAddressLength) /\
  DistanceCmp x y a = (0, Some ErrAddressLength) /\
  0 <= Proximity x y <= MaxPO /\
  0 <= ExtendedProximity ExtendedPO x y < 8 * (ExtendedPO / 8 + 1).
Proof.
  intros Hpo Hne.
  assert (Hraw : DistanceRaw x y = (None, Some ErrAddressLength)).
  { unfold DistanceRaw. destruct (Nat.eqb_spec (length x) (length y)); [lia|reflexivity]. }
  repeat split.
  - exact Hraw.
  - unfold Distance. rewrite Hraw. reflexivity.
  - unfold DistanceCmp.
    destruct (Nat.eqb_spec (length a) (length x)); [|reflexivity].
    destruct (Nat.eqb_spec (length a) (length y)); [lia|reflexivity].
  - unfold DistanceCmp.
    destruct (Nat.eqb_spec (length x) (length a)); [|reflexivity].
    destruct (Nat.eqb_spec (length x) (length y)); [lia|reflexivity].
  - unfold DistanceCmp.
    destruct (Nat.eqb_spec (length x) (length y)); [lia|reflexivity].
  - apply (proximity_upto_range MaxPO x y). unfold MaxPO. lia.
  - pose proof (proximity_upto_range MaxPO x y ltac:(unfold MaxPO; lia)) as H.
    unfold Proximity, MaxPO in *. change (31 / 8) with 3 in H. lia.
  - apply (proximity_upto_range ExtendedPO x y Hpo).
  - apply (proximity_upto_range ExtendedPO x y Hpo).
Qed.

Lemma length_mismatch_outcomes_witness :
  DistanceRaw [1; 2] [3] = (None, Some ErrAddressLength) /\
  Distance [1; 2] [3] = (None, Some ErrAddressLength) /\
  DistanceCmp [4] [1; 2] [3] = (0, Some ErrAddressLength) /\
  DistanceCmp [1; 2] [4] [3] = (0, Some ErrAddressLength) /\
  DistanceCmp [1; 2] [3] [4] = (0, Some ErrAddressLength) /\
  0 <= Proximity [1; 2] [3] <= MaxPO /\
  0 <= ExtendedProximity 36 [1; 2] [3] < 8 * (36 / 8 + 1).
Proof.
  apply (length_mismatch_outcomes 36 [4] [1; 2] [3]); [lia | simpl; lia].
Defined.

(** C6, counterexample to the claim as stated. On inputs of different
    length [Proximity] and [ExtendedProximity] report no error: they return
    a proximity order, here the one they return for identical inputs. *)
Lemma Proximity_accepts_length_mismatch :
  length [255; 1] <> length (@nil Z) /\
  Proximity [255; 1] [] = MaxPO /\
  Proximity [255; 1] [] = Proximity [255; 1] [255; 1] /\
  ExtendedProximity 36 [255; 1] [] = 36 /\
  Proximity [128; 7] [0] = 0.
Proof. repeat split; simpl; lia. Qed.

End SwarmSpec.

(** ** Circuit breaker *)

Module BreakerSpec.
Import Go Breaker GoFacts.
Local Open Scope Z_scope.

Ltac unfold_breaker :=
  unfold Execute, ClosedUntil, beforef, afterf, call, resetFailed, modify, when,
    getBreaker, putBreaker, timeNow, bind, ret, with_breaker.

Lemma next_backoff_resetFailed b :
  next_backoff (resetFailed_state b) = next_backoff b.
Proof. reflexivity. Qed.


Lemma beforef_rejects_timed {U} (w : world U) :
  limit (brk w) <= consFailedCalls (brk w) ->
  IsZero (closedTimestamp (brk w)) = false ->
  Sub (clock w (ticks w)) (closedTimestamp (brk w)) < backoff (brk w) ->
  beforef w = (Some ErrClosed, snd (timeNow w)).
Proof.
  intros Hlim Hz Hlt. unfold_breaker.
  rewrite Z.geb_leb. destruct (Z.leb_spec (limit (brk w)) (consFailedCalls (brk w))); [|lia].
  rewrite Hz. simpl.
  destruct (Z.ltb_spec (Sub (clock w (ticks w)) (closedTimestamp (brk w))) (backoff (brk w)));
    [reflexivity | lia].
Qed.

(** [beforef] on a tripped breaker whose backoff has elapsed. *)
Lemma beforef_cooled {U} (w : world U) :
  limit (brk w) <= consFailedCalls (brk w) ->
  IsZero (closedTimestamp (brk w)) = false ->
  backoff (brk w) <= Sub (clock w (ticks w)) (closedTimestamp (brk w)) ->
  beforef w =
    (None, with_breaker (set_backoff (next_backoff (brk w)) (resetFailed_state (brk w)))
                        (snd (timeNow w))).
Proof.
  intros Hlim Hz Hle. unfold_breaker.
  rewrite Z.geb_leb. destruct (Z.leb_spec (limit (brk w)) (consFailedCalls (brk w))); [|lia].
  rewrite Hz. simpl.
  destruct (Z.ltb_spec (Sub (clock w (ticks w)) (closedTimestamp (brk w))) (backoff (brk w)));
    [lia | reflexivity].
Qed.

(** [beforef] on a breaker that is not tripped and whose first failure is
    at least [failInterval] old. *)
Lemma beforef_stale {U} (w : world U) :
  consFailedCalls (brk w) < limit (brk w) ->
  IsZero (firstFailedTimestamp (brk w)) = false ->
  failInterval (brk w) <= Sub (clock w (ticks w)) (firstFailedTimestamp (brk w)) ->
  beforef w = (None, with_breaker (resetFailed_state (brk w)) (snd (timeNow w))).
Proof.
  intros Hlim Hz Hle. unfold_breaker.
  rewrite Z.geb_leb. destruct (Z.leb_spec (limit (brk w)) (consFailedCalls (brk w))); [lia|].
  simpl. rewrite Hz. simpl.
  rewrite Z.geb_leb.
  destruct (Z.leb_spec (failInterval (brk w))
              (Sub (clock w (ticks w)) (firstFailedTimestamp (brk w)))); [reflexivity | lia].
Qed.

Lemma Execute_beforef_rejected {U} (f : operation U) (w : world U) e w' :
  beforef w = (Some e, w') -> Execute f w = (Some e, w').
Proof. intros H. unfold Execute, bind, ret. rewrite H. reflexivity. Qed.

Lemma Execute_beforef_allowed {U} (f : operation U) (w : world U) w' :
  beforef w = (None, w') -> Execute f w = (let* r := call f in afterf r) w'.
Proof. intros H. unfold Execute. unfold bind at 1. rewrite H. reflexivity. Qed.

(** C1. A breaker that has recorded exactly [limit] consecutive failures,
    with its trip timestamp set and the backoff not yet elapsed at the
    clock reading of the call, answers the next [Execute] with [ErrClosed];
    the outcome is the same whatever the operation is, and the state the
    operation works on is untouched: the operation is not invoked. *)
Theorem Execute_rejects_at_limit {U} (f : operation U) (w : world U) :
  consFailedCalls (brk w) = limit (brk w) ->
  IsZero (closedTimestamp (brk w)) = false ->
  Sub (clock w (ticks w)) (closedTimestamp (brk w)) < backoff (brk w) ->
  Execute f w = (Some ErrClosed, snd (timeNow w)) /\
  user (snd (Execute f w)) = user w /\
  brk (snd (Execute f w)) = brk w.
Proof.
  intros Hlim Hz Hlt.
  assert (E : Execute f w = (Some ErrClosed, snd (timeNow w))).
  { apply Execute_beforef_rejected, beforef_rejects_timed; [lia | assumption | assumption]. }
  rewrite E. repeat split.
Qed.

Lemma Execute_rejects_at_limit_witness :
  Execute failing scenario_tripped = (Some ErrClosed, snd (timeNow scenario_tripped)) /\
  user (snd (Execute failing scenario_tripped)) = user scenario_tripped /\
  brk (snd (Execute failing scenario_tripped)) = brk scenario_tripped.
Proof.
  apply (Execute_rejects_at_limit failing scenario_tripped).
  - reflexivity.
  - reflexivity.
  - vm_compute. reflexivity.
Defined.


(** The scenario of the specification: after two failures the third call
    is rejected without being run. *)
Example scenario_third_call_rejected :
  fst (Execute failing scenario_tripped) = Some ErrClosed /\
  user (snd (Execute failing scenario_tripped)) = 2%nat.
Proof. split; reflexivity. Qed.

Lemma next_backoff_exact b :
  - 2 ^ 62 <= backoff b < 2 ^ 62 ->
  next_backoff b = Z.min (2 * backoff b) (maxBackoff b).
Proof.
  intros H. unfold next_backoff.
  rewrite wrap64_small by (unfold int64_range, minInt64, maxInt64; lia).
  destruct (Z.leb_spec (backoff b * 2) (maxBackoff b)); lia.
Qed.

(** C4 (as amended). On a tripped breaker whose trip timestamp is set and
    whose backoff has elapsed at the clock reading of the call, [Execute]
    resets the failure counter and the first-failure timestamp, sets the
    backoff to the smaller of twice its value and [maxBackoff], provided
    twice its value fits the 64-bit [Duration], and then invokes the
    operation in that state, its outcome going through [afterf]. *)
Theorem Execute_after_cooldown {U} (f : operation U) (w : world U) :
  limit (brk w) <= consFailedCalls (brk w) ->
  IsZero (closedTimestamp (brk w)) = false ->
  backoff (brk w) <= Sub (clock w (ticks w)) (closedTimestamp (brk w)) ->
  - 2 ^ 62 <= backoff (brk w) < 2 ^ 62 ->
  let b' := set_backoff (Z.min (2 * backoff (brk w)) (maxBackoff (brk w)))
                        (resetFailed_state (brk w)) in
  consFailedCalls b' = 0 /\
  firstFailedTimestamp b' = zeroTime /\
  beforef w = (None, with_breaker b' (snd (timeNow w))) /\
  Execute f w = (let* r := call f in afterf r) (with_breaker b' (snd (timeNow w))).
Proof.
  intros Hlim Hz Hle Hfit b'.
  assert (E : beforef w = (None, with_breaker b' (snd (timeNow w)))).
  { rewrite (beforef_cooled w Hlim Hz Hle). subst b'.
    rewrite (next_backoff_exact (brk w) Hfit). reflexivity. }
  repeat split; [exact E|].
  apply Execute_beforef_allowed. exact E.
Qed.

Lemma Execute_after_cooldown_witness :
  let w := scenario_cooled in
  let b' := set_backoff (Z.min (2 * backoff (brk w)) (maxBackoff (brk w)))
                        (resetFailed_state (brk w)) in
  consFailedCalls b' = 0 /\
  firstFailedTimestamp b' = zeroTime /\
  beforef w = (None, with_breaker b' (snd (timeNow w))) /\
  Execute failing w = (let* r := call failing in afterf r) (with_breaker b' (snd (timeNow w))).
Proof.
  apply (Execute_after_cooldown failing scenario_cooled).
  - vm_compute. discriminate.
  - reflexivity.
  - vm_compute. discriminate.
  - vm_compute. split; [discriminate | reflexivity].
Defined.

(** The scenario of the specification: one minute after the trip the call
    goes through; it fails, the backoff is two minutes and one failure is
    recorded. *)
Example scenario_call_after_cooldown :
  let r := Execute failing scenario_cooled in
  fst r = Some (ErrOther "dial failed") /\
  backoff (brk (snd r)) = 2 * minute /\
  consFailedCalls (brk (snd r)) = 1 /\
  user (snd r) = 3%nat.
Proof. repeat split; reflexivity. Qed.

(** C4, counterexample to the claim as stated. The breaker is tripped and
    its backoff of [2^62] ns has elapsed; twice the backoff does not fit
    [Duration], the product wraps to [- 2^63], which is below [maxBackoff],
    and becomes the backoff: it is neither twice the old value nor
    [maxBackoff]. *)
Lemma Execute_backoff_wraps :
  let w := huge_tripped in
  limit (brk w) <= consFailedCalls (brk w) /\
  IsZero (closedTimestamp (brk w)) = false /\
  backoff (brk w) <= Sub (clock w (ticks w)) (closedTimestamp (brk w)) /\
  backoff (brk w) <= maxBackoff (brk w) /\
  backoff (brk (snd (beforef w))) = - 2 ^ 63 /\
  backoff (brk (snd (Execute failing w))) = - 2 ^ 63 /\
  backoff (brk (snd (Execute failing w))) <>
    Z.min (2 * backoff (brk w)) (maxBackoff (brk w)).
Proof. vm_compute. repeat split; congruence. Qed.

Lemma afterf_count_from_zero {U} (r : option error) (w : world U) :
  consFailedCalls (brk w) = 0 ->
  consFailedCalls (brk (snd (afterf r w))) = match r with Some _ => 1 | None => 0 end.
Proof.
  intros H0. destruct r as [e|]; unfold_breaker; simpl; [|reflexivity].
  rewrite H0. simpl. rewrite !H0.
  destruct (wrap64 (0 + 1) =? limit (brk w)); reflexivity.
Qed.

(** C5. On a breaker that is not tripped and has a first-failure timestamp,
    an [Execute] whose clock reading is at least [failInterval] after that
    timestamp resets the failure count (and the timestamp) and then invokes
    the operation in that state; the earlier failures are forgotten, so the
    count after the call is [1] when the operation fails and [0] when it
    succeeds, whatever it was before. *)
Theorem Execute_outside_window {U} (f : operation U) (w : world U) :
  consFailedCalls (brk w) < limit (brk w) ->
  IsZero (firstFailedTimestamp (brk w)) = false ->
  failInterval (brk w) <= Sub (clock w (ticks w)) (firstFailedTimestamp (brk w)) ->
  let w' := with_breaker (resetFailed_state (brk w)) (snd (timeNow w)) in
  consFailedCalls (brk w') = 0 /\
  beforef w = (None, w') /\
  Execute f w = (let* r := call f in afterf r) w' /\
  consFailedCalls (brk (snd (Execute f w))) =
    match fst (f (user w)) with Some _ => 1 | None => 0 end.
Proof.
  intros Hlim Hz Hle w'.
  pose proof (beforef_stale w Hlim Hz Hle) as E. fold w' in E.
  pose proof (Execute_beforef_allowed f w w' E) as EX.
  repeat split; [exact E | exact EX |].
  rewrite EX. unfold bind, call. simpl.
  destruct (f (user w)) as [r u]. simpl.
  apply afterf_count_from_zero. reflexivity.
Qed.

Lemma Execute_outside_window_witness :
  let w := scenario_stale in
  let w' := with_breaker (resetFailed_state (brk w)) (snd (timeNow w)) in
  consFailedCalls (brk w') = 0 /\
  beforef w = (None, w') /\
  Execute failing w = (let* r := call failing in afterf r) w' /\
  consFailedCalls (brk (snd (Execute failing w))) =
    match fst (failing (user w)) with Some _ => 1 | None => 0 end.
Proof.
  apply (Execute_outside_window failing scenario_stale).
  - vm_compute. reflexivity.
  - reflexivity.
  - vm_compute. discriminate.
Defined.

(** A failure inside the window is counted on top of the earlier ones. *)
Example scenario_failures_accumulate :
  consFailedCalls (brk scenario_tripped) = 2 /\
  consFailedCalls (brk (snd (Execute failing scenario_stale))) = 1.
Proof. split; reflexivity. Qed.

Ltac case_ifs :=
  repeat match goal with
         | |- context [if ?c then _ else _] => destruct c eqn:?; simpl
         end.

Lemma call_brk {U} (f : operation U) (w : world U) :
  brk (snd (call f w)) = brk w.
Proof. unfold call. destruct (f (user w)). reflexivity. Qed.

Lemma afterf_backoff {U} (r : option error) (w : world U) :
  backoff (brk (snd (afterf r w))) = backoff (brk w) /\
  maxBackoff (brk (snd (afterf r w))) = maxBackoff (brk w).
Proof.
  destruct r as [e|]; unfold_breaker; simpl; [|auto].
  case_ifs; auto.
Qed.

Lemma next_backoff_bounded b :
  backoff_bounded b ->
  backoff b <= next_backoff b <= maxBackoff b /\ 0 <= next_backoff b.
Proof.
  intros [H1 H2]. rewrite next_backoff_exact by lia. lia.
Qed.

Lemma beforef_backoff {U} (w : world U) :
  backoff_bounded (brk w) ->
  backoff_bounded (brk (snd (beforef w))) /\
  backoff (brk w) <= backoff (brk (snd (beforef w))).
Proof.
  intros Hb. pose proof (next_backoff_bounded _ Hb) as Hn.
  destruct Hb as [H1 H2]. unfold backoff_bounded.
  unfold_breaker; simpl. case_ifs; rewrite ?next_backoff_resetFailed; lia.
Qed.

Lemma Execute_backoff {U} (f : operation U) (w : world U) :
  backoff_bounded (brk w) ->
  backoff_bounded (brk (snd (Execute f w))) /\
  backoff (brk w) <= backoff (brk (snd (Execute f w))).
Proof.
  intros Hb. pose proof (beforef_backoff w Hb) as [Hb' Hle].
  unfold Execute. rewrite bind_run.
  destruct (beforef w) as [[e|] w1]; cbn [fst snd] in *; [auto|].
  rewrite bind_run.
  pose proof (afterf_backoff (fst (call f w1)) (snd (call f w1))) as [A1 A2].
  unfold backoff_bounded in *. rewrite A1, A2, (call_brk f w1). auto.
Qed.

Lemma ClosedUntil_brk {U} (w : world U) : brk (snd (ClosedUntil w)) = brk w.
Proof. unfold_breaker; simpl. case_ifs; reflexivity. Qed.

Lemma invoke_backoff {U} (c : invocation U) (w : world U) :
  backoff_bounded (brk w) ->
  backoff_bounded (brk (snd (invoke c w))) /\
  backoff (brk w) <= backoff (brk (snd (invoke c w))).
Proof.
  intros Hb. destruct c as [f|]; unfold invoke, bind, ret.
  - pose proof (Execute_backoff f w Hb) as H.
    destruct (Execute f w) as [r w']. exact H.
  - pose proof (ClosedUntil_brk w) as H.
    destruct (ClosedUntil w) as [t w']. simpl in *. rewrite H. split; [exact Hb | lia].
Qed.

Lemma run_backoff {U} (cs : list (invocation U)) : forall w : world U,
  backoff_bounded (brk w) ->
  backoff_bounded (brk (snd (run cs w))) /\
  backoff (brk w) <= backoff (brk (snd (run cs w))).
Proof.
  induction cs as [|c cs IH]; intros w Hb; simpl.
  - split; [exact Hb | lia].
  - unfold bind. pose proof (invoke_backoff c w Hb) as [Hb' Hle].
    destruct (invoke c w) as [[] w1]. simpl in *.
    destruct (IH w1 Hb') as [Hb2 Hle2]. split; [exact Hb2 | lia].
Qed.

Lemma run_app {U} (cs1 cs2 : list (invocation U)) : forall w : world U,
  snd (run (cs1 ++ cs2) w) = snd (run cs2 (snd (run cs1 w))).
Proof.
  induction cs1 as [|c cs1 IH]; intros w; simpl; [reflexivity|].
  unfold bind. destruct (invoke c w) as [[] w1]. apply IH.
Qed.

(** C10 (as amended). For a breaker constructed with
    [0 <= backoff <= maxBackoff < 2^62] (nanoseconds), the backoff never
    decreases along any sequence of [Execute] and [ClosedUntil] calls, with
    any operations and any clock: after any further calls it is at least
    what it was, and so at least the initial value. *)
Theorem backoff_never_decreases {U} (o : Options) (clk : nat -> Time) (u : U)
    (cs1 cs2 : list (invocation U)) :
  0 <= backoff (NewBreaker o) <= maxBackoff (NewBreaker o) ->
  maxBackoff (NewBreaker o) < 2 ^ 62 ->
  backoff (NewBreaker o) <= backoff (brk (snd (run cs1 (start o clk u)))) /\
  backoff (brk (snd (run cs1 (start o clk u)))) <=
    backoff (brk (snd (run (cs1 ++ cs2) (start o clk u)))).
Proof.
  intros H1 H2.
  assert (Hb : backoff_bounded (brk (start o clk u))) by (split; assumption).
  destruct (run_backoff cs1 _ Hb) as [Hb1 Hle1].
  destruct (run_backoff cs2 _ Hb1) as [_ Hle2].
  rewrite run_app. split; [exact Hle1 | exact Hle2].
Qed.

Lemma backoff_never_decreases_witness :
  backoff (NewBreaker scenario_options) <=
    backoff (brk (snd (run [CallExecute failing; CallExecute failing]
                           (start scenario_options seconds_clock O)))) /\
  backoff (brk (snd (run [CallExecute failing; CallExecute failing]
                         (start scenario_options seconds_clock O)))) <=
    backoff (brk (snd (run ([CallExecute failing; CallExecute failing] ++
                            [CallClosedUntil; CallExecute succeeding])
                           (start scenario_options seconds_clock O)))).
Proof.
  apply (backoff_never_decreases scenario_options seconds_clock O
           [CallExecute failing; CallExecute failing]
           [CallClosedUntil; CallExecute succeeding]).
  - vm_compute. split; discriminate.
  - vm_compute. reflexivity.
Defined.

(** A success after the backoff was doubled leaves it doubled. *)
Example scenario_success_keeps_backoff :
  backoff (brk (snd (run [CallExecute failing; CallExecute succeeding]
                         scenario_cooled))) = 2 * minute.
Proof. reflexivity. Qed.

(** C10, counterexample to the claim as stated. Both breakers are built
    with an initial backoff that does not exceed the maximum backoff; each
    trips on its first failure, and the call after the cool-down lowers the
    backoff: from [-1] to [-2] for a negative initial backoff, and from
    [2^62] to [- 2^63] when twice the backoff does not fit [Duration]. *)
Lemma backoff_can_decrease :
  (StartBackoff negative_options <= MaxBackoff negative_options /\
   backoff (NewBreaker negative_options) <= maxBackoff (NewBreaker negative_options) /\
   backoff (brk (snd (run ([CallExecute failing] ++ [CallExecute failing])
                          (start negative_options seconds_clock O)))) <
   backoff (brk (snd (run [CallExecute failing]
                          (start negative_options seconds_clock O))))) /\
  (StartBackoff huge_options <= MaxBackoff huge_options /\
   backoff (NewBreaker huge_options) <= maxBackoff (NewBreaker huge_options) /\
   backoff (brk (snd (run ([CallExecute failing] ++ [CallExecute failing])
                          (start huge_options huge_clock O)))) <
   backoff (brk (snd (run [CallExecute failing]
                          (start huge_options huge_clock O))))).
Proof. vm_compute. repeat split; congruence. Qed.

(** With the defaults the hundredth failure trips the breaker: the call
    after 99 failures is run, the call after 100 is not, and a success
    after 99 failures clears the streak. *)
Example default_limit_trips :
  let after n := snd (run (replicate n (CallExecute failing))
                          (start default_options seconds_clock O)) in
  fst (Execute failing (after 99%nat)) = Some (ErrOther "dial failed") /\
  user (snd (Execute failing (after 99%nat))) = 100%nat /\
  fst (Execute failing (after 100%nat)) = Some ErrClosed /\
  user (snd (Execute failing (after 100%nat))) = 100%nat /\
  fst (Execute failing (snd (run [CallExecute succeeding] (after 99%nat)))) =
    Some (ErrOther "dial failed") /\
  consFailedCalls (brk (snd (run [CallExecute succeeding] (after 99%nat)))) = 0.
Proof. vm_compute. repeat split; reflexivity. Qed.

End BreakerSpec.

(** ** Blocklist *)

Module BlocklistSpec.
Import Go Blocklist GoFacts.
Local Open Scope Z_scope.

Lemma get_stored (key : string) (w : world) :
  get key w = (stored (store w) key, w).
Proof.
  unfold stored, get, bind, store_Get, ret, world_of; simpl.
  destruct (getErr (store w) key); [reflexivity|].
  destruct (items (store w) !! key) as [e|]; [|reflexivity].
  destruct (ParseDuration (Duration e)) as [d [err|]]; reflexivity.
Qed.

(** [Exists], by the outcome of the lookup. *)
Lemma Exists_unfold (overlay : Address) (w : world) :
  Exists overlay w =
    match stored (store w) (generateKey overlay) with
    | (_, _, Some err) =>
        if bool_decide (err = ErrNotFound) then ((false, None), w)
        else ((false, Some err), w)
    | (ts, d, None) =>
        if expired (clock w (ticks w)) ts d
        then ((false, None), snd (store_Delete (generateKey overlay) (snd (timeNow w))))
        else ((true, None), snd (timeNow w))
    end.
Proof.
  unfold Exists. rewrite bind_run, get_stored. cbn [fst snd].
  destruct (stored (store w) (generateKey overlay)) as [[ts d] [err|]].
  - destruct (bool_decide (err = ErrNotFound)); reflexivity.
  - rewrite bind_run. cbn [timeNow fst snd].
    destruct (expired (clock w (ticks w)) ts d); [|reflexivity].
    rewrite bind_run. reflexivity.
Qed.

(** [Add], by the outcome of the lookup. *)
Lemma Add_unfold (overlay : Address) (duration : Go.Duration) (w : world) :
  Add overlay duration w =
    match stored (store w) (generateKey overlay) with
    | (_, d, Some err) =>
        if bool_decide (err = ErrNotFound)
        then add_entry (generateKey overlay) d duration w
        else (Some err, w)
    | (_, d, None) => add_entry (generateKey overlay) d duration w
    end.
Proof.
  unfold Add. rewrite bind_run, get_stored. cbn [fst snd].
  destruct (stored (store w) (generateKey overlay)) as [[ts d] [err|]]; [|reflexivity].
  destruct (bool_decide (err = ErrNotFound)); reflexivity.
Qed.

Lemma add_entry_unfold (key : string) (d duration : Go.Duration) (w : world) :
  add_entry key d duration w =
    store_Put key
      {| Timestamp := clock w (ticks w);
         Duration := Duration_String
           (if (duration <? d) && negb (duration =? 0) || (d =? 0) then d else duration) |}
      (snd (timeNow w)).
Proof. unfold add_entry. rewrite bind_run. reflexivity. Qed.

(** A lookup miss leaves the sentinel duration [-1] in [get]'s result. *)
Lemma stored_error_duration (s : StateStorer) (key : string) ts d e :
  stored s key = (ts, d, Some e) -> d = -1.
Proof.
  unfold stored, get, bind, store_Get, ret, world_of; simpl.
  destruct (getErr s key); [intros [= <- <- <-]; reflexivity|].
  destruct (items s !! key) as [en|]; [|intros [= <- <- <-]; reflexivity].
  destruct (ParseDuration (Duration en)) as [d' [err|]]; intros [= <- <- ?]; reflexivity.
Qed.


Lemma expired_false now ts d :
  expired now ts d = false <-> d = 0 \/ Sub now ts <= d.
Proof.
  unfold expired. rewrite andb_false_iff, negb_false_iff, Z.gtb_ltb, Z.ltb_ge, Z.eqb_eq. tauto.
Qed.

Lemma store_Delete_gone (key : string) (w : world) :
  deleteErr (store w) key = None ->
  items (store (snd (store_Delete key w))) !! key = None.
Proof.
  intros H. unfold store_Delete. rewrite H. simpl. apply lookup_delete_eq.
Qed.



(** The scenarios of the specification: blocked right after [add(A, 10m)],
    still blocked at 4m59s, not blocked at 5m01s of a five-minute block and
    the entry gone; blocked indefinitely after [add(A, 0)]. *)
Example scenario_add_then_exists :
  let s5 := store (snd (Add peerA (5 * minute) (world_at emptyStore t0))) in
  let s0 := store (snd (Add peerA 0 (world_at emptyStore t0))) in
  fst (Exists peerA (world_at s5 t0)) = (true, None) /\
  fst (Exists peerA (world_at s5 (t0 + 299 * 1000000000))) = (true, None) /\
  fst (Exists peerA (world_at s5 (t0 + 301 * 1000000000))) = (false, None) /\
  items (store (snd (Exists peerA (world_at s5 (t0 + 301 * 1000000000)))))
    !! generateKey peerA = None /\
  fst (Exists peerA (world_at s0 (t0 + 1000 * hour))) = (true, None).
Proof. vm_compute. repeat split; reflexivity. Qed.

Lemma store_Put_stored (key : string) (e : entry) (w : world) :
  fst (store_Put key e w) = None ->
  items (store (snd (store_Put key e w))) !! key = Some e /\
  (forall k, k <> key ->
     items (store (snd (store_Put key e w))) !! k = items (store w) !! k).
Proof.
  unfold store_Put. destruct (putErr (store w) key); [discriminate|].
  intros _. simpl. split; [apply lookup_insert_eq|].
  intros k Hk. apply lookup_insert_ne. congruence.
Qed.

(** C2 (as amended). When [Add] succeeds it stores, under the key of the
    address, an entry whose timestamp is the current time and whose
    duration is: the existing duration when that is zero or when the
    requested one is nonzero and strictly less than it; the requested
    duration otherwise, which includes the case of no prior entry as long
    as the requested duration is not below [-1] ns. Entries under other
    keys are left alone. *)
Theorem Add_stores_effective_duration (overlay : Address) (duration : Go.Duration)
    (w : world) :
  let key := generateKey overlay in
  fst (Add overlay duration w) = None ->
  is_Some (existing_duration (store w) key) \/ -1 <= duration ->
  items (store (snd (Add overlay duration w))) !! key =
    Some {| Timestamp := clock w (ticks w);
            Duration := Duration_String
              (effective_duration (existing_duration (store w) key) duration) |} /\
  (forall k, k <> key ->
     items (store (snd (Add overlay duration w))) !! k = items (store w) !! k).
Proof.
  intros key. rewrite Add_unfold. fold key. unfold existing_duration.
  destruct (stored (store w) key) as [[ts d] [err|]] eqn:Hs.
  - destruct (bool_decide (err = ErrNotFound)); [|discriminate].
    intros Hok [[x Hx]|Hd]; [discriminate|]. revert Hok.
    apply stored_error_duration in Hs. subst d.
    rewrite add_entry_unfold. cbn [effective_duration].
    destruct (Z.ltb_spec duration (-1)); [lia|]. cbn [andb orb Z.eqb].
    intros Hok. exact (store_Put_stored _ _ _ Hok).
  - intros Hok _. revert Hok. rewrite add_entry_unfold. cbn [effective_duration].
    replace ((d =? 0) || negb (duration =? 0) && (duration <? d))
      with ((duration <? d) && negb (duration =? 0) || (d =? 0))
      by (destruct (duration <? d), (duration =? 0), (d =? 0); reflexivity).
    intros Hok. exact (store_Put_stored _ _ _ Hok).
Qed.

Lemma Add_stores_effective_duration_witness :
  items (store (snd (Add peerA (3 * minute) (world_at store_A10 (t0 + minute)))))
    !! generateKey peerA =
    Some {| Timestamp := t0 + minute; Duration := Duration_String (10 * minute) |} /\
  (forall k, k <> generateKey peerA ->
     items (store (snd (Add peerA (3 * minute) (world_at store_A10 (t0 + minute))))) !! k =
     items store_A10 !! k).
Proof.
  apply (Add_stores_effective_duration peerA (3 * minute) (world_at store_A10 (t0 + minute))).
  - vm_compute. reflexivity.
  - left. vm_compute. eexists. reflexivity.
Defined.

(** Re-adding with a shorter duration keeps the longer one and restarts the
    clock; a longer one, or zero, replaces it; zero is never replaced. *)
Example scenario_readd :
  let again d := existing_duration
                   (store (snd (Add peerA d (world_at store_A10 (t0 + minute)))))
                   (generateKey peerA) in
  again (3 * minute) = Some (10 * minute) /\
  again (20 * minute) = Some (20 * minute) /\
  again 0 = Some 0 /\
  existing_duration
    (store (snd (Add peerB minute (world_at store_A10_B0 (t0 + minute)))))
    (generateKey peerB) = Some 0.
Proof. vm_compute. repeat split; reflexivity. Qed.

(** C2, counterexample to the claim as stated. No entry is stored for the
    address and a duration of [-2] ns is requested; [get] reports the miss
    with the duration [-1], the requested duration is below it, and the
    entry is stored with [-1] ns rather than the requested [-2] ns. *)
Lemma Add_negative_duration_on_miss :
  let w := world_at emptyStore t0 in
  let key := generateKey peerB in
  items (store w) !! key = None /\
  snd (stored (store w) key) = Some ErrNotFound /\
  fst (Add peerB (-2) w) = None /\
  items (store (snd (Add peerB (-2) w))) !! key =
    Some {| Timestamp := t0; Duration := Duration_String (-1) |} /\
  Duration_String (-1) <> Duration_String (-2).
Proof. vm_compute. repeat split; congruence. Qed.

(** *** Keys *)

Lemma fromHexChar_hexDigit n : 0 <= n < 16 -> fromHexChar (hexDigit n) = Some n.
Proof.
  intros H. rewrite <- (Z2Nat.id n) by lia.
  assert (Hm : (Z.to_nat n < 16)%nat) by lia.
  revert Hm. generalize (Z.to_nat n). intros m Hm.
  do 16 (destruct m as [|m]; [reflexivity|]). lia.
Qed.

Lemma high_nibble_range b : 0 <= b < 256 -> 0 <= Z.shiftr b 4 < 16.
Proof.
  intros H. rewrite Z.shiftr_div_pow2 by lia. change (2 ^ 4) with 16.
  split; [apply Z.div_pos; lia | apply Z.div_lt_upper_bound; lia].
Qed.

Lemma low_nibble_range b : 0 <= Z.land b 15 < 16.
Proof.
  change 15 with (Z.ones 4). rewrite Z.land_ones by lia.
  apply Z.mod_pos_bound. lia.
Qed.

Lemma nibbles_join b :
  Z.lor (Z.shiftl (Z.shiftr b 4) 4) (Z.land b 15) = b.
Proof.
  apply Z.bits_inj'. intros n Hn.
  rewrite Z.lor_spec, Z.land_spec. change 15 with (Z.ones 4).
  destruct (Z.lt_ge_cases n 4).
  - rewrite Z.shiftl_spec_low by lia.
    rewrite Z.ones_spec_low by lia. rewrite andb_true_r. reflexivity.
  - rewrite Z.shiftl_spec by lia. rewrite Z.shiftr_spec by lia.
    rewrite Z.ones_spec_high by lia. rewrite andb_false_r, orb_false_r.
    f_equal. lia.
Qed.

Lemma decodeHex_encodeHex (bs : list Z) :
  Forall (fun b => 0 <= b < 256) bs -> decodeHex (encodeHex bs) = (bs, None).
Proof.
  induction 1 as [|b bs Hb _ IH]; [reflexivity|].
  cbn [encodeHex decodeHex].
  rewrite (fromHexChar_hexDigit _ (high_nibble_range b Hb)).
  rewrite (fromHexChar_hexDigit _ (low_nibble_range b)).
  rewrite IH, nibbles_join. reflexivity.
Qed.

Lemma substring_full s : String.substring 0 (String.length s) s = s.
Proof. induction s as [|c s IH]; simpl; [reflexivity | rewrite IH; reflexivity]. Qed.

Lemma HasPrefix_generateKey a : HasPrefix (generateKey a) keyPrefix = true.
Proof.
  unfold HasPrefix, generateKey, keyPrefix. simpl.
  destruct (Address_String a); reflexivity.
Qed.

Lemma TrimPrefix_generateKey a : TrimPrefix (generateKey a) keyPrefix = Address_String a.
Proof.
  unfold TrimPrefix. rewrite HasPrefix_generateKey.
  unfold generateKey, keyPrefix. simpl. 
  rewrite Nat.sub_0_r. apply substring_full.
Qed.

Lemma unmarshalKey_generateKey (a : Address) :
  Forall (fun b => 0 <= b < 256) a -> unmarshalKey (generateKey a) = (a, None).
Proof.
  intros H. unfold unmarshalKey. rewrite TrimPrefix_generateKey.
  unfold ParseHexAddress, Address_String. rewrite (decodeHex_encodeHex a H). reflexivity.
Qed.

(** *** Peers *)

Lemma lift_run {L A} (m : M world A) (w : world) (l : L) :
  lift m (w, l) = (fst (m w), (snd (m w), l)).
Proof. unfold lift. cbn [fst snd]. destruct (m w). reflexivity. Qed.

(** One visit of the [Peers] closure, for a key under the prefix. *)
Lemma visitPeer_step (k : string) (v : entry) (w : world) (peers : list Peer) :
  HasPrefix k keyPrefix = true ->
  visitPeer k v (w, peers) =
    match snd (unmarshalKey k) with
    | Some e => ((true, Some e), (w, peers))
    | None =>
        match stored (store w) k with
        | (_, _, Some e) => ((true, Some e), (w, peers))
        | (t, d, None) =>
            ((false, None),
             (snd (timeNow w),
              if expired (clock w (ticks w)) t d then peers
              else peers ++ [{| PeerAddress := fst (unmarshalKey k) |}]))
        end
    end.
Proof.
  intros Hp. unfold visitPeer. rewrite Hp. cbn [negb].
  destruct (unmarshalKey k) as [addr [e|]]; cbn [fst snd]; [reflexivity|].
  rewrite bind_run, lift_run, get_stored. cbn [fst snd].
  destruct (stored (store w) k) as [[t d] [e|]]; [reflexivity|].
  rewrite bind_run, lift_run. cbn [fst snd timeNow].
  destruct (expired (clock w (ticks w)) t d); [reflexivity|].
  rewrite bind_run. reflexivity.
Qed.

(** The iteration of [Peers] over entries under the prefix: it leaves the
    store and the clock alone, takes one clock reading per entry, fails
    with the first failure met, and otherwise appends the unexpired peers. *)
Lemma iterate_visitPeer (kvs : list (string * entry)) :
  forall (w : world) (peers : list Peer),
  Forall (fun kv => HasPrefix (fst kv) keyPrefix = true) kvs ->
  let r := iterate_entries visitPeer kvs (w, peers) in
  store (fst (snd r)) = store w /\
  clock (fst (snd r)) = clock w /\
  fst r = first_visit_error (store w) (map fst kvs) /\
  (fst r = None ->
   snd (snd r) = peers ++ unexpired_peers (store w) (clock w) (ticks w) (map fst kvs)).
Proof.
  induction kvs as [|[k v] kvs IH]; intros w peers Hall.
  - simpl. rewrite app_nil_r. auto.
  - inversion Hall as [|? ? Hk Hrest]; subst. cbn [fst] in Hk.
    cbn [iterate_entries map fst first_visit_error unexpired_peers].
    rewrite bind_run, (visitPeer_step k v w peers Hk).
    destruct (snd (unmarshalKey k)) as [e|]; cbn [fst snd].
    { repeat split; try reflexivity. discriminate. }
    destruct (stored (store w) k) as [[t d] [e|]] eqn:Hs; cbn [fst snd].
    { repeat split; try reflexivity. discriminate. }
    specialize (IH (snd (timeNow w))
                   (if expired (clock w (ticks w)) t d then peers
                    else peers ++ [{| PeerAddress := fst (unmarshalKey k) |}]) Hrest).
    cbn [timeNow snd store clock ticks] in IH. cbn [timeNow snd].
    destruct IH as (I1 & I2 & I3 & I4).
    repeat split; [exact I1 | exact I2 | exact I3 |].
    intros Hnone. rewrite (I4 Hnone).
    destruct (expired (clock w (ticks w)) t d); [reflexivity|].
    rewrite <- app_assoc. reflexivity.
Qed.

Lemma entries_with_prefix_HasPrefix (s : StateStorer) :
  Forall (fun kv => HasPrefix (fst kv) keyPrefix = true) (entries_with_prefix keyPrefix s).
Proof.
  apply Forall_forall. intros kv Hin. unfold entries_with_prefix in Hin.
  apply list_elem_of_filter in Hin. destruct Hin as [Hp _]. exact Hp.
Qed.

(** [Peers], by what the visits meet. *)
Lemma Peers_outcome (w : world) :
  let keys := map fst (entries_with_prefix keyPrefix (store w)) in
  store (snd (Peers w)) = store w /\
  fst (Peers w) =
    match first_visit_error (store w) keys with
    | Some e => ([], Some e)
    | None =>
        match iterateErr (store w) with
        | Some e => ([], Some e)
        | None => (unexpired_peers (store w) (clock w) (ticks w) keys, None)
        end
    end.
Proof.
  intros keys. unfold Peers, store_Iterate. cbn [fst snd].
  pose proof (iterate_visitPeer (entries_with_prefix keyPrefix (store w)) w []
                (entries_with_prefix_HasPrefix (store w))) as H.
  cbn zeta in H. fold keys in H.
  destruct (iterate_entries visitPeer (entries_with_prefix keyPrefix (store w)) (w, []))
    as [err s'].
  cbn [fst snd] in H. destruct H as (H1 & _ & H3 & H4).
  rewrite <- H3. destruct err as [e|]; cbn [fst snd].
  - auto.
  - specialize (H4 eq_refl). rewrite app_nil_l in H4.
    destruct (iterateErr (store w)); cbn [fst snd]; rewrite ?H4; auto.
Qed.



(** With the clock standing still, an address is listed exactly when it is
    the address of a key whose entry is not expired. *)
Lemma unexpired_peers_elem (s : StateStorer) (now : Time) (keys : list string) (p : Peer) :
  forall t,
  p ∈ unexpired_peers s (fun _ => now) t keys <->
  exists k, k ∈ keys /\ p = {| PeerAddress := fst (unmarshalKey k) |} /\
    expired now (fst (fst (stored s k))) (snd (fst (stored s k))) = false.
Proof.
  induction keys as [|k keys IH]; intros t; cbn [unexpired_peers].
  - split; [intros H; inversion H | intros (k & H & _); inversion H].
  - destruct (stored s k) as [[ts d] e] eqn:Hs.
    destruct (expired now ts d) eqn:He.
    + rewrite IH. split.
      * intros (k' & Hin & Hp & Hx). exists k'. split; [right; exact Hin | auto].
      * intros (k' & Hin & Hp & Hx). exists k'. apply elem_of_cons in Hin.
        destruct Hin as [->|Hin]; [|auto].
        rewrite Hs in Hx. cbn [fst snd] in Hx. congruence.
    + rewrite elem_of_cons, IH. split.
      * intros [->|(k' & Hin & Hp & Hx)].
        -- exists k. rewrite Hs. cbn [fst snd]. split; [left|]; auto.
        -- exists k'. split; [right; exact Hin | auto].
      * intros (k' & Hin & Hp & Hx). apply elem_of_cons in Hin.
        destruct Hin as [->|Hin]; [left; exact Hp | right; exists k'; auto].
Qed.

(** The scenario of the specification: eleven minutes after [peerA] was
    blocked for ten, [Peers] lists [peerB] only, and the entry of [peerA]
    is still stored. *)
Example scenario_peers_after_expiry :
  let w := world_at store_A10_B0 (t0 + 11 * minute) in
  fst (Peers w) = ([{| PeerAddress := peerB |}], None) /\
  items (store (snd (Peers w))) !! generateKey peerA =
    Some {| Timestamp := t0; Duration := Duration_String (10 * minute) |} /\
  fst (Exists peerA w) = (false, None) /\
  items (store (snd (Exists peerA w))) !! generateKey peerA = None.
Proof. vm_compute. repeat split; reflexivity. Qed.




(** An entry whose duration does not decode makes the lookup fail, and the
    failure reaches the caller. *)
Example scenario_malformed_duration :
  fst (Exists peerA (world_at store_malformed t0)) =
    (false, Some (ErrOther "time: invalid duration")) /\
  fst (Add peerA minute (world_at store_malformed t0)) =
    Some (ErrOther "time: invalid duration") /\
  fst (Peers (world_at store_malformed t0)) =
    ([], Some (ErrOther "time: invalid duration")).
Proof. vm_compute. repeat split; reflexivity. Qed.


End BlocklistSpec.

(** * Further properties of the code *)

(** ** Overlay metric: proximity and distance *)

Module SwarmMetric.
Import Go Swarm GoFacts SwarmSpec.
Local Open Scope Z_scope.

(** *** Proximity *)

Lemma scan_bytes_comm one other n : forall i,
  scan_bytes one other i n = scan_bytes other one i n.
Proof.
  induction n as [|n IH]; intros i; cbn [scan_bytes]; [reflexivity|].
  rewrite (Z.lxor_comm (nth (Z.to_nat i) one 0)). rewrite IH. reflexivity.
Qed.

Lemma proximity_upto_comm (po : Z) (one other : bytes) :
  proximity_upto po one other = proximity_upto po other one.
Proof.
  unfold proximity_upto. rewrite scan_bytes_comm.
  set (c := uint8 (po / 8 + 1)).
  set (l1 := uint8 (Z.of_nat (length one))).
  set (l2 := uint8 (Z.of_nat (length other))).
  replace (if l2 <? (if l1 <? c then l1 else c) then l2 else if l1 <? c then l1 else c)
    with (if l1 <? (if l2 <? c then l2 else c) then l1 else if l2 <? c then l2 else c).
  - reflexivity.
  - destruct (Z.ltb_spec l1 c), (Z.ltb_spec l2 c);
      repeat match goal with |- context [?a <? ?b] => destruct (Z.ltb_spec a b) end; lia.
Qed.

(** X1. [Proximity] and [ExtendedProximity] are symmetric in their two
    arguments, whatever the lengths of the slices. *)
Theorem proximity_symmetric (ExtendedPO : Z) (one other : bytes) :
  Proximity one other = Proximity other one /\
  ExtendedProximity ExtendedPO one other = ExtendedProximity ExtendedPO other one.
Proof. split; apply proximity_upto_comm. Qed.

Lemma first_set_bit_zero m : forall j, first_set_bit 0 j m = None.
Proof.
  induction m as [|m IH]; intros j; cbn [first_set_bit]; [reflexivity|].
  rewrite Z.shiftr_0_l, Z.land_0_l. cbn [Z.eqb negb]. apply IH.
Qed.

Lemma scan_bytes_self x n : forall i, scan_bytes x x i n = None.
Proof.
  induction n as [|n IH]; intros i; cbn [scan_bytes]; [reflexivity|].
  rewrite Z.lxor_nilpotent, first_set_bit_zero. apply IH.
Qed.

(** X2. The proximity of a slice to itself is the constant: [MaxPO] for
    [Proximity], [ExtendedPO] for [ExtendedProximity]. *)
Theorem proximity_self (ExtendedPO : Z) (x : bytes) :
  Proximity x x = MaxPO /\ ExtendedProximity ExtendedPO x x = ExtendedPO.
Proof.
  unfold Proximity, ExtendedProximity, proximity_upto.
  rewrite !scan_bytes_self. split; reflexivity.
Qed.

(** *** The xor of two slices *)

Lemma xor_bytes_length x : forall y, length x = length y -> length (xor_bytes x y) = length x.
Proof.
  induction x as [|a x IH]; intros [|b y] H; simpl in *; try lia.
  rewrite IH; lia.
Qed.

Lemma xor_bytes_comm x : forall y, xor_bytes x y = xor_bytes y x.
Proof.
  induction x as [|a x IH]; intros [|b y]; simpl; try reflexivity.
  rewrite Z.lxor_comm, IH. reflexivity.
Qed.

Lemma xor_bytes_involutive x : forall y, length x = length y ->
  xor_bytes x (xor_bytes x y) = y.
Proof.
  induction x as [|a x IH]; intros [|b y] H; simpl in *; try lia; [reflexivity|].
  rewrite <- Z.lxor_assoc, Z.lxor_nilpotent, Z.lxor_0_l, IH by lia. reflexivity.
Qed.

Lemma DistanceRaw_equal_length x y :
  length x = length y -> DistanceRaw x y = (Some (xor_bytes x y), None).
Proof. intros H. unfold DistanceRaw. rewrite H, Nat.eqb_refl. reflexivity. Qed.

(** X5. On slices of equal length [DistanceRaw] succeeds with a slice of
    that length, is symmetric, and undoes itself: the raw distance from [x]
    to the raw distance between [x] and [y] is [y]. *)
Theorem DistanceRaw_involution (x y : bytes) :
  length x = length y ->
  exists d, DistanceRaw x y = (Some d, None) /\ length d = length x /\
            DistanceRaw y x = (Some d, None) /\
            DistanceRaw x d = (Some y, None).
Proof.
  intros H. exists (xor_bytes x y).
  rewrite (DistanceRaw_equal_length x y H).
  rewrite (DistanceRaw_equal_length y x (eq_sym H)).
  rewrite (xor_bytes_length x y H).
  rewrite DistanceRaw_equal_length by (rewrite xor_bytes_length; auto).
  rewrite xor_bytes_involutive by exact H.
  rewrite (xor_bytes_comm y x). auto.
Qed.

Lemma DistanceRaw_involution_witness :
  exists d, DistanceRaw [1; 2] [3; 7] = (Some d, None) /\ length d = length [1; 2] /\
            DistanceRaw [3; 7] [1; 2] = (Some d, None) /\
            DistanceRaw [1; 2] d = (Some [3; 7], None).
Proof. apply (DistanceRaw_involution [1; 2] [3; 7]). reflexivity. Defined.

(** *** The big-endian value of a slice *)

Lemma fold_bytes_acc bs : forall acc,
  fold_left (fun acc b => acc * 256 + b) bs acc =
  acc * 256 ^ Z.of_nat (length bs) + fold_left (fun acc b => acc * 256 + b) bs 0.
Proof.
  induction bs as [|b bs IH]; intros acc.
  - simpl. lia.
  - cbn [fold_left length]. rewrite (IH (acc * 256 + b)), (IH (0 * 256 + b)).
    rewrite Nat2Z.inj_succ, Z.pow_succ_r by lia. lia.
Qed.

Lemma SetBytes_cons b bs :
  SetBytes (b :: bs) = b * 256 ^ Z.of_nat (length bs) + SetBytes bs.
Proof. unfold SetBytes. cbn [fold_left]. rewrite fold_bytes_acc. lia. Qed.

Lemma SetBytes_snoc bs b : SetBytes (bs ++ [b]) = SetBytes bs * 256 + b.
Proof. unfold SetBytes. rewrite fold_left_app. reflexivity. Qed.

Lemma SetBytes_app u v :
  SetBytes (u ++ v) = SetBytes u * 256 ^ Z.of_nat (length v) + SetBytes v.
Proof. unfold SetBytes. rewrite fold_left_app. apply fold_bytes_acc. Qed.

Lemma SetBytes_range bs :
  valid_bytes bs -> 0 <= SetBytes bs < 256 ^ Z.of_nat (length bs).
Proof.
  induction 1 as [|b bs Hb _ IH].
  - unfold SetBytes. simpl. lia.
  - rewrite SetBytes_cons. cbn [length]. rewrite Nat2Z.inj_succ, Z.pow_succ_r by lia.
    nia.
Qed.

Lemma lxor_byte a b : 0 <= a < 256 -> 0 <= b < 256 -> 0 <= Z.lxor a b < 256.
Proof.
  intros Ha Hb.
  assert (E : Z.lxor a b = Z.lxor a b mod 2 ^ 8).
  { apply Z.bits_inj'. intros n Hn.
    destruct (Z.lt_ge_cases n 8).
    - rewrite Z.mod_pow2_bits_low by lia. reflexivity.
    - rewrite Z.mod_pow2_bits_high by lia. rewrite Z.lxor_spec.
      rewrite <- (Z.mod_small a (2 ^ 8)), <- (Z.mod_small b (2 ^ 8)) by lia.
      rewrite !Z.mod_pow2_bits_high by lia. reflexivity. }
  rewrite E. apply Z.mod_pos_bound. lia.
Qed.

Lemma xor_bytes_valid x : forall y,
  valid_bytes x -> valid_bytes y -> valid_bytes (xor_bytes x y).
Proof.
  unfold valid_bytes.
  induction x as [|a x IH]; intros [|b y] Hx Hy; simpl; try constructor.
  - inversion Hx; inversion Hy; subst. apply lxor_byte; assumption.
  - inversion Hx; inversion Hy; subst. apply IH; assumption.
Qed.

(** Slices of equal length with the same big-endian value are equal. *)
Lemma SetBytes_inj u : forall v,
  valid_bytes u -> valid_bytes v -> length u = length v ->
  SetBytes u = SetBytes v -> u = v.
Proof.
  induction u as [|a u IH]; intros [|b v] Hu Hv Hl; simpl in Hl; try lia; [reflexivity|].
  inversion Hu as [|? ? Ha Hu']; inversion Hv as [|? ? Hb Hv']; subst.
  rewrite !SetBytes_cons. intros E.
  pose proof (SetBytes_range u Hu'). pose proof (SetBytes_range v Hv').
  assert (Hlen : length u = length v) by lia. rewrite Hlen in *.
  assert (a = b) by nia. subst b.
  f_equal. apply IH; auto. lia.
Qed.

Lemma SetBytes_xor_self x : SetBytes (xor_bytes x x) = 0.
Proof.
  induction x as [|a x IH]; [reflexivity|].
  cbn [xor_bytes]. rewrite SetBytes_cons, Z.lxor_nilpotent. lia.
Qed.

Lemma xor_bytes_eq_zero x : forall y, length x = length y ->
  SetBytes (xor_bytes x y) = 0 -> valid_bytes x -> valid_bytes y -> x = y.
Proof.
  intros y Hl E Hx Hy.
  assert (Hz : xor_bytes x y = xor_bytes x x).
  { apply SetBytes_inj.
    - apply xor_bytes_valid; assumption.
    - apply xor_bytes_valid; assumption.
    - rewrite !xor_bytes_length; auto.
    - rewrite E. symmetry. apply SetBytes_xor_self. }
  rewrite <- (xor_bytes_involutive x y Hl), Hz.
  symmetry. apply xor_bytes_involutive. reflexivity.
Qed.

Lemma Distance_equal_length x y :
  length x = length y -> Distance x y = (Some (SetBytes (xor_bytes x y)), None).
Proof. intros H. unfold Distance. rewrite (DistanceRaw_equal_length x y H). reflexivity. Qed.

(** X6. On byte slices of equal length [Distance] succeeds, is symmetric,
    lies in [[0, 256^len)], and is zero exactly between a slice and itself. *)
Theorem Distance_symmetric_zero (x y : bytes) :
  length x = length y -> valid_bytes x -> valid_bytes y ->
  exists d, Distance x y = (Some d, None) /\ Distance y x = (Some d, None) /\
            0 <= d < 256 ^ Z.of_nat (length x) /\ (d = 0 <-> x = y).
Proof.
  intros Hl Hx Hy. exists (SetBytes (xor_bytes x y)).
  rewrite (Distance_equal_length x y Hl), (Distance_equal_length y x (eq_sym Hl)).
  rewrite (xor_bytes_comm y x). repeat split.
  - apply SetBytes_range, xor_bytes_valid; assumption.
  - pose proof (SetBytes_range _ (xor_bytes_valid x y Hx Hy)) as H.
    rewrite xor_bytes_length in H by exact Hl. apply H.
  - intros E. apply xor_bytes_eq_zero; assumption.
  - intros ->. apply SetBytes_xor_self.
Qed.

Lemma Distance_symmetric_zero_witness :
  exists d, Distance [1; 2] [3; 7] = (Some d, None) /\
            Distance [3; 7] [1; 2] = (Some d, None) /\
            0 <= d < 256 ^ Z.of_nat (length [1; 2]) /\ (d = 0 <-> [1; 2] = [3; 7]).
Proof.
  apply (Distance_symmetric_zero [1; 2] [3; 7]).
  - reflexivity.
  - repeat constructor; lia.
  - repeat constructor; lia.
Defined.

(** *** [DistanceCmp] and [Distance] *)

Lemma cmp_bytes_orders a : forall x y,
  valid_bytes a -> valid_bytes x -> valid_bytes y ->
  length a = length x -> length a = length y ->
  cmp_bytes a x y =
    match SetBytes (xor_bytes x a) ?= SetBytes (xor_bytes y a) with
    | Lt => 1 | Eq => 0 | Gt => -1
    end.
Proof.
  induction a as [|ai a IH]; intros [|xi x] [|yi y] Ha Hx Hy Hlx Hly;
    simpl in Hlx, Hly; try lia; [reflexivity|].
  inversion Ha as [|? ? Hai Ha']; inversion Hx as [|? ? Hxi Hx'];
    inversion Hy as [|? ? Hyi Hy']; subst.
  cbn [cmp_bytes xor_bytes]. rewrite !SetBytes_cons.
  pose proof (SetBytes_range _ (xor_bytes_valid x a Hx' Ha')) as Rx.
  pose proof (SetBytes_range _ (xor_bytes_valid y a Hy' Ha')) as Ry.
  rewrite xor_bytes_length in Rx by lia. rewrite xor_bytes_length in Ry by lia.
  rewrite !xor_bytes_length by lia.
  assert (Hlen : length x = length y) by lia. rewrite Hlen in *.
  pose proof (lxor_byte xi ai Hxi Hai). pose proof (lxor_byte yi ai Hyi Hai).
  set (P := 256 ^ Z.of_nat (length y)) in *.
  destruct (Z.eqb_spec (Z.lxor xi ai) (Z.lxor yi ai)) as [E|E].
  - rewrite E, (IH x y) by (auto; lia).
    rewrite Z.add_compare_mono_l. reflexivity.
  - destruct (Z.ltb_spec (Z.lxor xi ai) (Z.lxor yi ai)).
    + assert (Z.lxor xi ai * P + SetBytes (xor_bytes x a) <
              Z.lxor yi ai * P + SetBytes (xor_bytes y a)) as Hlt by nia.
      apply Z.compare_lt_iff in Hlt. rewrite Hlt. reflexivity.
    + assert (Z.lxor yi ai * P + SetBytes (xor_bytes y a) <
              Z.lxor xi ai * P + SetBytes (xor_bytes x a)) as Hgt by nia.
      apply Z.compare_gt_iff in Hgt. rewrite Hgt. reflexivity.
Qed.

(** X8. On byte slices of equal length [DistanceCmp a x y] is the
    comparison of the two distances that [Distance] computes: 1 when [x] is
    closer to [a] than [y] is, -1 when it is farther, 0 when the distances
    are equal. *)
Theorem DistanceCmp_orders_by_Distance (a x y : bytes) :
  valid_bytes a -> valid_bytes x -> valid_bytes y ->
  length a = length x -> length a = length y ->
  exists dx dy,
    Distance x a = (Some dx, None) /\ Distance y a = (Some dy, None) /\
    DistanceCmp a x y =
      (match dx ?= dy with Lt => 1 | Eq => 0 | Gt => -1 end, None).
Proof.
  intros Ha Hx Hy Hlx Hly.
  exists (SetBytes (xor_bytes x a)), (SetBytes (xor_bytes y a)).
  rewrite !Distance_equal_length by lia.
  rewrite DistanceCmp_equal_length by assumption.
  rewrite (cmp_bytes_orders a x y) by assumption. auto.
Qed.

Lemma DistanceCmp_orders_by_Distance_witness :
  exists dx dy,
    Distance [11; 20] [10; 20] = (Some dx, None) /\
    Distance [10; 21] [10; 20] = (Some dy, None) /\
    DistanceCmp [10; 20] [11; 20] [10; 21] =
      (match dx ?= dy with Lt => 1 | Eq => 0 | Gt => -1 end, None).
Proof.
  apply (DistanceCmp_orders_by_Distance [10; 20] [11; 20] [10; 21]);
    try reflexivity; repeat constructor; lia.
Defined.

(** *** The triangle inequality *)

Lemma lxor_shift_bytes A B b1 b2 :
  0 <= b1 < 256 -> 0 <= b2 < 256 ->
  Z.lxor (A * 256 + b1) (B * 256 + b2) = Z.lxor A B * 256 + Z.lxor b1 b2.
Proof.
  intros H1 H2.
  pose proof (lxor_byte b1 b2 H1 H2) as H3.
  apply Z.bits_inj'. intros n Hn.
  rewrite Z.lxor_spec.
  assert (T : forall X b, 0 <= b < 256 ->
            Z.testbit (X * 256 + b) n =
            if n <? 8 then Z.testbit b n else Z.testbit X (n - 8)).
  { intros X b Hb. destruct (Z.ltb_spec n 8).
    - rewrite <- (Z.mod_pow2_bits_low (X * 256 + b) 8 n) by lia.
      change (2 ^ 8) with 256. rewrite Z.add_comm, Z.mod_add by lia.
      rewrite Z.mod_small by lia. reflexivity.
    - replace n with ((n - 8) + 8) at 1 by lia.
      rewrite <- Z.div_pow2_bits by lia. change (2 ^ 8) with 256.
      rewrite Z.add_comm, Z.div_add by lia. rewrite Z.div_small by lia. reflexivity. }
  rewrite !T by assumption.
  destruct (n <? 8); rewrite Z.lxor_spec; reflexivity.
Qed.

Lemma xor_bytes_snoc x : forall y b1 b2, length x = length y ->
  xor_bytes (x ++ [b1]) (y ++ [b2]) = xor_bytes x y ++ [Z.lxor b1 b2].
Proof.
  induction x as [|a x IH]; intros [|b y] b1 b2 H; simpl in *; try lia; [reflexivity|].
  rewrite IH by lia. reflexivity.
Qed.

(** The value of the xor of two slices is the xor of their values. *)
Lemma SetBytes_xor x : forall y,
  valid_bytes x -> valid_bytes y -> length x = length y ->
  SetBytes (xor_bytes x y) = Z.lxor (SetBytes x) (SetBytes y).
Proof.
  induction x as [|b1 x IH] using rev_ind; intros y Hx Hy Hl.
  - destruct y; [reflexivity | simpl in Hl; lia].
  - destruct y as [|b2 y _] using rev_ind.
    + rewrite length_app in Hl. simpl in Hl. lia.
    + rewrite !length_app in Hl. simpl in Hl.
      apply Forall_app in Hx. apply Forall_app in Hy.
      destruct Hx as [Hx Hb1], Hy as [Hy Hb2].
      inversion Hb1; inversion Hb2; subst.
      rewrite xor_bytes_snoc by lia. rewrite !SetBytes_snoc.
      rewrite lxor_shift_bytes by assumption. rewrite IH by (auto; lia). reflexivity.
Qed.

Lemma lxor_le_add a b : 0 <= a -> 0 <= b -> Z.lxor a b <= a + b.
Proof.
  intros Ha Hb. pose proof (Z.add_lxor_2land a b).
  assert (0 <= Z.land a b) by (apply Z.land_nonneg; auto). lia.
Qed.

(** X7. [Distance] obeys the triangle inequality on byte slices of equal
    length. *)
Theorem Distance_triangle (x y z : bytes) :
  valid_bytes x -> valid_bytes y -> valid_bytes z ->
  length x = length y -> length y = length z ->
  exists dxy dyz dxz,
    Distance x y = (Some dxy, None) /\ Distance y z = (Some dyz, None) /\
    Distance x z = (Some dxz, None) /\ dxz <= dxy + dyz.
Proof.
  intros Hx Hy Hz Hxy Hyz.
  exists (SetBytes (xor_bytes x y)), (SetBytes (xor_bytes y z)), (SetBytes (xor_bytes x z)).
  rewrite !Distance_equal_length by lia. repeat split.
  rewrite !SetBytes_xor by (auto; lia).
  pose proof (SetBytes_range x Hx). pose proof (SetBytes_range y Hy).
  pose proof (SetBytes_range z Hz).
  replace (Z.lxor (SetBytes x) (SetBytes z))
    with (Z.lxor (Z.lxor (SetBytes x) (SetBytes y)) (Z.lxor (SetBytes y) (SetBytes z))).
  - apply lxor_le_add; apply Z.lxor_nonneg; lia.
  - rewrite Z.lxor_assoc, <- (Z.lxor_assoc (SetBytes y)), Z.lxor_nilpotent, Z.lxor_0_l.
    reflexivity.
Qed.

Lemma Distance_triangle_witness :
  exists dxy dyz dxz,
    Distance [1; 2] [3; 7] = (Some dxy, None) /\
    Distance [3; 7] [200; 9] = (Some dyz, None) /\
    Distance [1; 2] [200; 9] = (Some dxz, None) /\ dxz <= dxy + dyz.
Proof.
  apply (Distance_triangle [1; 2] [3; 7] [200; 9]);
    try reflexivity; repeat constructor; lia.
Defined.

(** *** Proximity as a logarithm of the distance *)

Lemma first_set_bit_check :
  forallb (fun b =>
             match first_set_bit b 0 8 with
             | Some j => (0 <=? j) && (j <? 8) && (2 ^ (7 - j) <=? b) && (b <? 2 ^ (8 - j))
             | None => b =? 0
             end) (map Z.of_nat (seq 0 256)) = true.
Proof. vm_compute. reflexivity. Qed.

(** The inner loop finds the highest set bit of a byte. *)
Lemma first_set_bit_byte b :
  0 <= b < 256 ->
  match first_set_bit b 0 8 with
  | Some j => 0 <= j < 8 /\ 2 ^ (7 - j) <= b < 2 ^ (8 - j)
  | None => b = 0
  end.
Proof.
  intros H. pose proof first_set_bit_check as C.
  rewrite forallb_forall in C. specialize (C b).
  assert (Hin : In b (map Z.of_nat (seq 0 256))).
  { apply in_map_iff. exists (Z.to_nat b). split; [lia|]. apply in_seq. lia. }
  specialize (C Hin). destruct (first_set_bit b 0 8) as [j|]; lia.
Qed.

(** The outer loop over the bytes [i .. i+k-1]: it finds nothing when their
    xor is zero, and the position of its highest set bit otherwise. *)
Lemma scan_bytes_log2 (x y : bytes) (k : nat) : forall i : nat,
  valid_bytes x -> valid_bytes y ->
  (i + k <= length x)%nat -> (i + k <= length y)%nat -> (i + k <= 32)%nat ->
  let V := SetBytes (xor_bytes (take k (drop i x)) (take k (drop i y))) in
  match scan_bytes x y (Z.of_nat i) k with
  | None => V = 0
  | Some r => 0 < V /\ r = 8 * Z.of_nat i + 8 * Z.of_nat k - 1 - Z.log2 V
  end.
Proof.
  induction k as [|k IH]; intros i Hx Hy Lx Ly L32 V.
  - reflexivity.
  - destruct (lookup_lt_is_Some_2 x i ltac:(lia)) as [xi Hxi].
    destruct (lookup_lt_is_Some_2 y i ltac:(lia)) as [yi Hyi].
    assert (Vxi : 0 <= xi < 256).
    { unfold valid_bytes in Hx. rewrite Forall_lookup in Hx. exact (Hx i xi Hxi). }
    assert (Vyi : 0 <= yi < 256).
    { unfold valid_bytes in Hy. rewrite Forall_lookup in Hy. exact (Hy i yi Hyi). }
    subst V. rewrite (drop_S x xi i Hxi), (drop_S y yi i Hyi).
    cbn [take xor_bytes scan_bytes]. rewrite Nat2Z.id.
    rewrite !nth_lookup, Hxi, Hyi. cbn [default from_option id].
    rewrite SetBytes_cons.
    specialize (IH (S i) Hx Hy ltac:(lia) ltac:(lia) ltac:(lia)). cbn zeta in IH.
    set (T := xor_bytes (take k (drop (S i) x)) (take k (drop (S i) y))) in *.
    assert (VT : valid_bytes T).
    { apply xor_bytes_valid; apply Forall_take, Forall_drop; assumption. }
    assert (LT : length T = k).
    { subst T. rewrite xor_bytes_length; rewrite !length_take, !length_drop; lia. }
    pose proof (SetBytes_range T VT) as RT. rewrite LT in *.
    pose proof (lxor_byte xi yi Vxi Vyi) as Hb.
    pose proof (first_set_bit_byte _ Hb) as Hf.
    assert (P256 : 256 ^ Z.of_nat k = 2 ^ (8 * Z.of_nat k)).
    { change 256 with (2 ^ 8). rewrite <- Z.pow_mul_r by lia. reflexivity. }
    destruct (first_set_bit (Z.lxor xi yi) 0 8) as [j|].
    + cbv beta iota. destruct Hf as [Hj Hr].
      assert (Hlog : Z.log2 (Z.lxor xi yi * 256 ^ Z.of_nat k + SetBytes T)
                     = 7 - j + 8 * Z.of_nat k).
      { apply Z.log2_unique; [lia|].
        rewrite P256 in *.
        replace (2 ^ (7 - j + 8 * Z.of_nat k)) with (2 ^ (7 - j) * 2 ^ (8 * Z.of_nat k))
          by (rewrite <- Z.pow_add_r by lia; reflexivity).
        replace (2 ^ Z.succ (7 - j + 8 * Z.of_nat k))
          with (2 ^ (8 - j) * 2 ^ (8 * Z.of_nat k))
          by (rewrite <- Z.pow_add_r by lia; f_equal; lia).
        assert (0 < 2 ^ (8 * Z.of_nat k)) by (apply Z.pow_pos_nonneg; lia).
        assert (0 < 2 ^ (7 - j)) by (apply Z.pow_pos_nonneg; lia).
        nia. }
      rewrite Hlog. split.
      * assert (0 < 2 ^ (7 - j)) by (apply Z.pow_pos_nonneg; lia).
        assert (0 < 256 ^ Z.of_nat k) by (apply Z.pow_pos_nonneg; lia). nia.
      * unfold uint8. rewrite Z.mod_small by lia. lia.
    + cbv beta iota. rewrite Hf, Z.mul_0_l, Z.add_0_l.
      replace (Z.of_nat i + 1) with (Z.of_nat (S i)) by lia.
      destruct (scan_bytes x y (Z.of_nat (S i)) k) as [r|]; [|exact IH].
      destruct IH as [IH1 IH2]. split; [exact IH1|]. rewrite IH2. lia.
Qed.

(** The shared body: the constant when the leading [po / 8 + 1] bytes of
    the distance are zero, and otherwise the number of leading zero bits of
    that window. *)
Lemma proximity_upto_log2 (po : Z) (x y : bytes) :
  0 <= po < 256 ->
  valid_bytes x -> valid_bytes y -> length x = length y ->
  po / 8 + 1 <= Z.of_nat (length x) < 256 ->
  proximity_upto po x y =
    (let window :=
       SetBytes (xor_bytes x y) / 256 ^ (Z.of_nat (length x) - (po / 8 + 1)) in
     if window =? 0 then po else 8 * (po / 8 + 1) - 1 - Z.log2 window).
Proof.
  intros Hpo Hx Hy Hl Hlen. cbn zeta.
  assert (Hq : 0 <= po / 8 < 32).
  { split; [apply Z.div_pos; lia | apply Z.div_lt_upper_bound; lia]. }
  set (c := Z.to_nat (po / 8 + 1)).
  assert (Hc : Z.of_nat c = po / 8 + 1) by (subst c; lia).
  assert (Hsplit : xor_bytes x y =
                   xor_bytes (take c x) (take c y) ++ xor_bytes (drop c x) (drop c y)).
  { clear -Hl. revert x y Hl. induction c as [|c IH]; intros x y Hl; [reflexivity|].
    destruct x as [|a x], y as [|b y]; simpl in *; try lia; [reflexivity|].
    rewrite <- IH by lia. reflexivity. }
  assert (VD : valid_bytes (xor_bytes (drop c x) (drop c y))).
  { apply xor_bytes_valid; apply Forall_drop; assumption. }
  assert (LD : length (xor_bytes (drop c x) (drop c y)) = (length x - c)%nat).
  { rewrite xor_bytes_length; rewrite !length_drop; lia. }
  pose proof (SetBytes_range _ VD) as RD. rewrite LD in RD.
  assert (Hw : SetBytes (xor_bytes x y) / 256 ^ (Z.of_nat (length x) - (po / 8 + 1))
               = SetBytes (xor_bytes (take c x) (take c y))).
  { rewrite Hsplit at 1. rewrite SetBytes_app, LD.
    replace (Z.of_nat (length x) - (po / 8 + 1)) with (Z.of_nat (length x - c)) by lia.
    rewrite Z.add_comm, Z.div_add by (apply Z.pow_nonzero; lia).
    rewrite Z.div_small by lia. reflexivity. }
  rewrite Hw.
  unfold proximity_upto.
  assert (Hb : uint8 (po / 8 + 1) = po / 8 + 1) by (unfold uint8; apply Z.mod_small; lia).
  assert (Hlx : uint8 (Z.of_nat (length x)) = Z.of_nat (length x))
    by (unfold uint8; apply Z.mod_small; lia).
  rewrite <- Hl, Hb, Hlx.
  destruct (Z.ltb_spec (Z.of_nat (length x)) (po / 8 + 1)); [lia|].
  destruct (Z.ltb_spec (Z.of_nat (length x)) (po / 8 + 1)); [lia|].
  fold c.
  pose proof (scan_bytes_log2 x y c O Hx Hy ltac:(lia) ltac:(lia) ltac:(lia)) as S.
  cbn zeta in S. rewrite !drop_0 in S. change (Z.of_nat 0) with 0 in S.
  destruct (scan_bytes x y 0 c) as [r|].
  - destruct S as [S1 S2]. destruct (Z.eqb_spec (SetBytes (xor_bytes (take c x) (take c y))) 0);
      [lia|]. rewrite S2. lia.
  - rewrite S. reflexivity.
Qed.

(** X3. On byte slices of equal length, long enough for the scan, the
    proximity is read off the distance: with [window] the leading four bytes
    of [Distance x y] (the leading [ExtendedPO / 8 + 1] for
    [ExtendedProximity]), it is the constant when the window is zero and the
    number of leading zero bits of the window otherwise. For
    [ExtendedProximity] that number can exceed [ExtendedPO] when
    [ExtendedPO + 1] is not a multiple of 8. *)
Theorem proximity_is_log2_of_distance (ExtendedPO : Z) (x y : bytes) :
  0 <= ExtendedPO < 256 ->
  valid_bytes x -> valid_bytes y -> length x = length y ->
  4 <= Z.of_nat (length x) < 256 ->
  ExtendedPO / 8 + 1 <= Z.of_nat (length x) ->
  exists d,
    Distance x y = (Some d, None) /\
    Proximity x y =
      (let window := d / 256 ^ (Z.of_nat (length x) - 4) in
       if window =? 0 then MaxPO else MaxPO - Z.log2 window) /\
    ExtendedProximity ExtendedPO x y =
      (let window := d / 256 ^ (Z.of_nat (length x) - (ExtendedPO / 8 + 1)) in
       if window =? 0 then ExtendedPO
       else 8 * (ExtendedPO / 8 + 1) - 1 - Z.log2 window).
Proof.
  intros Hpo Hx Hy Hl Hlen Hext. exists (SetBytes (xor_bytes x y)).
  split; [apply Distance_equal_length; exact Hl|]. split.
  - unfold Proximity. rewrite (proximity_upto_log2 MaxPO x y) by
      (try assumption; unfold MaxPO; try change (31 / 8 + 1) with 4; lia).
    unfold MaxPO. change (31 / 8 + 1) with 4. cbn zeta.
    destruct (_ =? 0); [reflexivity | lia].
  - unfold ExtendedProximity. apply proximity_upto_log2; try assumption. lia.
Qed.

Lemma proximity_is_log2_of_distance_witness :
  exists d,
    Distance [1; 2; 3; 4] [1; 2; 7; 4] = (Some d, None) /\
    Proximity [1; 2; 3; 4] [1; 2; 7; 4] =
      (let window := d / 256 ^ (Z.of_nat (length [1; 2; 3; 4]) - 4) in
       if window =? 0 then MaxPO else MaxPO - Z.log2 window) /\
    ExtendedProximity 20 [1; 2; 3; 4] [1; 2; 7; 4] =
      (let window := d / 256 ^ (Z.of_nat (length [1; 2; 3; 4]) - (20 / 8 + 1)) in
       if window =? 0 then 20 else 8 * (20 / 8 + 1) - 1 - Z.log2 window).
Proof.
  apply (proximity_is_log2_of_distance 20 [1; 2; 3; 4] [1; 2; 7; 4]).
  - lia.
  - repeat constructor; lia.
  - repeat constructor; lia.
  - reflexivity.
  - vm_compute. split; [discriminate | reflexivity].
  - vm_compute. discriminate.
Defined.

(** X4. An address with a strictly higher [Proximity] to [a] is strictly
    closer to [a]: [DistanceCmp] answers 1. *)
Theorem higher_proximity_is_closer (a x y : bytes) :
  valid_bytes a -> valid_bytes x -> valid_bytes y ->
  length a = length x -> length a = length y ->
  4 <= Z.of_nat (length a) < 256 ->
  Proximity a y < Proximity a x ->
  DistanceCmp a x y = (1, None).
Proof.
  intros Ha Hx Hy Hlx Hly Hlen Hlt.
  assert (Hm : 0 <= MaxPO < 256) by (unfold MaxPO; lia).
  assert (Hb : MaxPO / 8 + 1 <= Z.of_nat (length a) < 256)
    by (unfold MaxPO; change (31 / 8 + 1) with 4; lia).
  pose proof (proximity_upto_log2 MaxPO a x Hm Ha Hx Hlx Hb) as Px.
  pose proof (proximity_upto_log2 MaxPO a y Hm Ha Hy Hly Hb) as Py.
  cbn zeta in Px, Py. unfold Proximity in Hlt. rewrite Px, Py in Hlt.
  unfold MaxPO in *. change (31 / 8 + 1) with 4 in *.
  set (P := 256 ^ (Z.of_nat (length a) - 4)) in *.
  assert (HP : 0 < P) by (apply Z.pow_pos_nonneg; lia).
  pose proof (SetBytes_range _ (xor_bytes_valid a x Ha Hx)) as Rx.
  pose proof (SetBytes_range _ (xor_bytes_valid a y Ha Hy)) as Ry.
  assert (Wx : 0 <= SetBytes (xor_bytes a x) / P) by (apply Z.div_pos; lia).
  assert (Wy : 0 <= SetBytes (xor_bytes a y) / P) by (apply Z.div_pos; lia).
  assert (Hw : SetBytes (xor_bytes a x) / P < SetBytes (xor_bytes a y) / P).
  { pose proof (Z.log2_nonneg (SetBytes (xor_bytes a x) / P)).
    pose proof (Z.log2_nonneg (SetBytes (xor_bytes a y) / P)).
    destruct (Z.eqb_spec (SetBytes (xor_bytes a y) / P) 0) as [E|E]; [rewrite E in *|].
    - destruct (SetBytes (xor_bytes a x) / P =? 0); lia.
    - destruct (Z.eqb_spec (SetBytes (xor_bytes a x) / P) 0) as [E'|E']; [lia|].
      apply Z.log2_lt_cancel. lia. }
  assert (Hd : SetBytes (xor_bytes x a) < SetBytes (xor_bytes y a)).
  { rewrite (xor_bytes_comm x a), (xor_bytes_comm y a).
    destruct (Z.lt_ge_cases (SetBytes (xor_bytes a x)) (SetBytes (xor_bytes a y))) as [|Hge];
      [assumption|].
    apply (Z.div_le_mono _ _ P HP) in Hge. lia. }
  rewrite DistanceCmp_equal_length by assumption.
  rewrite cmp_bytes_orders by assumption.
  apply Z.compare_lt_iff in Hd. rewrite Hd. reflexivity.
Qed.

Lemma higher_proximity_is_closer_witness :
  DistanceCmp [0; 0; 0; 0] [0; 0; 0; 1] [0; 1; 0; 0] = (1, None).
Proof.
  apply (higher_proximity_is_closer [0; 0; 0; 0] [0; 0; 0; 1] [0; 1; 0; 0]).
  - repeat constructor; lia.
  - repeat constructor; lia.
  - repeat constructor; lia.
  - reflexivity.
  - reflexivity.
  - vm_compute. split; [discriminate | reflexivity].
  - vm_compute. reflexivity.
Defined.

End SwarmMetric.

(** ** Circuit breaker: what a call and a run do *)

Module BreakerRuns.
Import Go Breaker GoFacts BreakerSpec.
Local Open Scope Z_scope.

(** [afterf] on a failure. *)
Lemma afterf_failure {U} (e : error) (w : world U) :
  fst (afterf (Some e) w) = Some e /\
  brk (snd (afterf (Some e) w)) = after_failure (clock w) (ticks w) (brk w) /\
  clock (snd (afterf (Some e) w)) = clock w /\
  user (snd (afterf (Some e) w)) = user w.
Proof.
  unfold after_failure. unfold_breaker. simpl.
  destruct (consFailedCalls (brk w) =? 0) eqn:E0; simpl;
    destruct (wrap64 (consFailedCalls (brk w) + 1) =? limit (brk w)) eqn:E1; simpl;
    repeat split; reflexivity.
Qed.

(** [afterf] on a success. *)
Lemma afterf_success {U} (w : world U) :
  afterf None w = (None, with_breaker (resetFailed_state (brk w)) w).
Proof. reflexivity. Qed.

(** [beforef] letting a call through: the configuration and the trip
    timestamp are kept, and the streak is either cleared or untouched. *)
Lemma beforef_allowed_state {U} (w : world U) w' :
  beforef w = (None, w') ->
  clock w' = clock w /\ user w' = user w /\
  limit (brk w') = limit (brk w) /\
  maxBackoff (brk w') = maxBackoff (brk w) /\
  failInterval (brk w') = failInterval (brk w) /\
  closedTimestamp (brk w') = closedTimestamp (brk w) /\
  ((consFailedCalls (brk w') = 0 /\ firstFailedTimestamp (brk w') = zeroTime) \/
   (brk w' = brk w /\ consFailedCalls (brk w) < limit (brk w))).
Proof.
  unfold_breaker. simpl.
  destruct (Z.geb_spec (consFailedCalls (brk w)) (limit (brk w))) as [Hge|Hlt]; simpl.
  - destruct (IsZero (closedTimestamp (brk w))); simpl; [discriminate|].
    destruct (_ <? _); simpl; [discriminate|].
    intros [= <-]. simpl. repeat split; auto.
  - destruct (IsZero (firstFailedTimestamp (brk w))); simpl.
    + intros [= <-]. repeat split; auto.
    + destruct (_ >=? _); simpl; intros [= <-]; simpl; repeat split; auto.
Qed.

(** [beforef] rejecting a call: the error is [ErrClosed], nothing but the
    tick counter moves, and the count had reached the limit. *)
Lemma beforef_rejected_state {U} (w : world U) e w' :
  beforef w = (Some e, w') ->
  e = ErrClosed /\ brk w' = brk w /\ user w' = user w /\ clock w' = clock w /\
  limit (brk w) <= consFailedCalls (brk w).
Proof.
  unfold_breaker. simpl.
  destruct (Z.geb_spec (consFailedCalls (brk w)) (limit (brk w))) as [Hge|Hlt]; simpl.
  - destruct (IsZero (closedTimestamp (brk w))); simpl.
    + intros [= <- <-]. repeat split; auto.
    + destruct (_ <? _); simpl; [|discriminate].
      intros [= <- <-]. repeat split; auto.
  - destruct (IsZero (firstFailedTimestamp (brk w))); simpl; [discriminate|].
    destruct (_ >=? _); simpl; discriminate.
Qed.

(** X9. [Execute] either rejects with [ErrClosed], without running the
    operation and without touching the breaker, or runs the operation once
    and returns its result as it is. *)
Theorem Execute_outcome {U} (f : operation U) (w : world U) :
  (fst (beforef w) = Some ErrClosed /\
   fst (Execute f w) = Some ErrClosed /\
   user (snd (Execute f w)) = user w /\ brk (snd (Execute f w)) = brk w) \/
  (fst (beforef w) = None /\
   fst (Execute f w) = fst (f (user w)) /\
   user (snd (Execute f w)) = snd (f (user w))).
Proof.
  destruct (beforef w) as [[e|] w'] eqn:E.
  - left. destruct (beforef_rejected_state w e w' E) as (-> & Hb & Hu & _).
    rewrite (Execute_beforef_rejected f w _ _ E). simpl. auto.
  - right. destruct (beforef_allowed_state w w' E) as (_ & Hu & _).
    rewrite (Execute_beforef_allowed f w w' E). rewrite bind_run.
    unfold call at 1 3. rewrite Hu. destruct (f (user w)) as [r u] eqn:F.
    cbn [fst snd]. split; [reflexivity|].
    destruct r as [e|].
    + destruct (afterf_failure e {| brk := brk w'; clock := clock w'; ticks := ticks w'; user := u |})
        as (A1 & _ & _ & A4).
      unfold call. rewrite Hu, F. cbn [fst snd]. rewrite A1, A4. auto.
    + unfold call. rewrite Hu, F. cbn [fst snd]. rewrite afterf_success. auto.
Qed.

(** X10. When [Execute] returns nil the operation was run and returned
    nil, and the failure streak is cleared: the count is zero and the
    first-failure timestamp is the zero time. *)
Theorem Execute_nil_clears_streak {U} (f : operation U) (w : world U) :
  fst (Execute f w) = None ->
  fst (f (user w)) = None /\
  consFailedCalls (brk (snd (Execute f w))) = 0 /\
  firstFailedTimestamp (brk (snd (Execute f w))) = zeroTime.
Proof.
  destruct (beforef w) as [[e|] w'] eqn:E.
  - rewrite (Execute_beforef_rejected f w _ _ E). discriminate.
  - destruct (beforef_allowed_state w w' E) as (_ & Hu & _).
    rewrite (Execute_beforef_allowed f w w' E). rewrite bind_run.
    unfold call. rewrite Hu. destruct (f (user w)) as [[e|] u]; cbn [fst snd].
    + destruct (afterf_failure e {| brk := brk w'; clock := clock w'; ticks := ticks w'; user := u |})
        as (A1 & _). rewrite A1. discriminate.
    + intros _. rewrite afterf_success. auto.
Qed.

Lemma Execute_nil_clears_streak_witness :
  let w := snd (Execute failing (start scenario_options seconds_clock O)) in
  fst (succeeding (user w)) = None /\
  consFailedCalls (brk (snd (Execute succeeding w))) = 0 /\
  firstFailedTimestamp (brk (snd (Execute succeeding w))) = zeroTime.
Proof.
  intros w. apply (Execute_nil_clears_streak succeeding w). vm_compute. reflexivity.
Defined.

(** *** The failure count along a run *)





(** *** A negative limit *)

Lemma negative_limit_frozen {U} (w : world U) :
  limit (brk w) <= consFailedCalls (brk w) ->
  IsZero (closedTimestamp (brk w)) = true ->
  forall cs : list (invocation U), snd (run cs w) = w.
Proof.
  intros Hl Hz cs. induction cs as [|c cs IH]; [reflexivity|].
  cbn [run]. rewrite bind_run.
  assert (E : snd (invoke c w) = w).
  { destruct c as [f|]; unfold invoke; rewrite bind_run; cbn [ret snd].
    - unfold_breaker. simpl.
      destruct (Z.geb_spec (consFailedCalls (brk w)) (limit (brk w))); [|lia].
      rewrite Hz. reflexivity.
    - unfold_breaker. simpl.
      destruct (Z.geb_spec (consFailedCalls (brk w)) (limit (brk w))); [|lia].
      reflexivity. }
  rewrite E. exact IH.
Qed.

(** X12. A breaker built with a negative limit never runs an operation:
    whatever calls are made, the state stays as [NewBreaker] left it, no
    clock reading is taken, and every [Execute] returns [ErrClosed]. *)
Theorem negative_limit_rejects_forever {U} (o : Options) (clk : nat -> Time) (u : U)
    (cs : list (invocation U)) (f : operation U) :
  Limit o < 0 ->
  snd (run cs (start o clk u)) = start o clk u /\
  Execute f (snd (run cs (start o clk u))) = (Some ErrClosed, start o clk u).
Proof.
  intros Hneg.
  assert (Hl : limit (brk (start o clk u)) <= consFailedCalls (brk (start o clk u))).
  { cbn [start brk NewBreaker limit consFailedCalls].
    destruct (Z.eqb_spec (Limit o) 0); lia. }
  assert (Hz : IsZero (closedTimestamp (brk (start o clk u))) = true) by reflexivity.
  rewrite (negative_limit_frozen _ Hl Hz cs). split; [reflexivity|].
  apply Execute_beforef_rejected.
  unfold_breaker. cbn [start brk NewBreaker limit consFailedCalls closedTimestamp].
  destruct (Z.geb_spec 0 (if Limit o =? 0 then limit_default else Limit o)) as [_|H];
    [reflexivity|].
  destruct (Z.eqb_spec (Limit o) 0); lia.
Qed.

Lemma negative_limit_rejects_forever_witness :
  snd (run [CallExecute succeeding; CallClosedUntil]
           (start negative_limit_options seconds_clock O)) =
    start negative_limit_options seconds_clock O /\
  Execute succeeding
    (snd (run [CallExecute succeeding; CallClosedUntil]
              (start negative_limit_options seconds_clock O))) =
    (Some ErrClosed, start negative_limit_options seconds_clock O).
Proof.
  apply (negative_limit_rejects_forever negative_limit_options seconds_clock O
           [CallExecute succeeding; CallClosedUntil] succeeding).
  vm_compute. reflexivity.
Defined.

(** *** [ClosedUntil] and the rejection test *)

(** X14. [ClosedUntil] tells when calls are let through again: provided
    the trip timestamp of a tripped breaker is set and the time since is
    within [Duration], [beforef] rejects a call exactly when the clock
    reading it would take is before [ClosedUntil()]. *)
Theorem rejected_iff_before_ClosedUntil {U} (w : world U) :
  (limit (brk w) <= consFailedCalls (brk w) ->
   IsZero (closedTimestamp (brk w)) = false /\
   int64_range (clock w (ticks w) - closedTimestamp (brk w))) ->
  (fst (beforef w) = Some ErrClosed <-> clock w (ticks w) < fst (ClosedUntil w)).
Proof.
  intros H.
  destruct (Z.le_gt_cases (limit (brk w)) (consFailedCalls (brk w))) as [Hl|Hl].
  - destruct (H Hl) as [Hz Hr].
    assert (EC : fst (ClosedUntil w) = closedTimestamp (brk w) + backoff (brk w)).
    { unfold_breaker. simpl.
      destruct (Z.geb_spec (consFailedCalls (brk w)) (limit (brk w))); [reflexivity|lia]. }
    rewrite EC. pose proof (Sub_exact _ _ Hr) as ES.
    destruct (Z.lt_ge_cases (Sub (clock w (ticks w)) (closedTimestamp (brk w))) (backoff (brk w)))
      as [Hlt|Hge].
    + rewrite (beforef_rejects_timed w Hl Hz Hlt). cbn [fst]. split; [lia|reflexivity].
    + rewrite (beforef_cooled w Hl Hz Hge). cbn [fst]. split; [discriminate|lia].
  - clear H.
    assert (EC : fst (ClosedUntil w) = clock w (ticks w)).
    { unfold_breaker. simpl.
      destruct (Z.geb_spec (consFailedCalls (brk w)) (limit (brk w))); [lia|reflexivity]. }
    rewrite EC. split; [|lia].
    destruct (beforef w) as [[e|] w'] eqn:E; cbn [fst]; [|discriminate].
    destruct (beforef_rejected_state w e w' E) as (_ & _ & _ & _ & Hx). lia.
Qed.

Lemma rejected_iff_before_ClosedUntil_witness :
  fst (beforef scenario_tripped) = Some ErrClosed <->
  clock scenario_tripped (ticks scenario_tripped) < fst (ClosedUntil scenario_tripped).
Proof.
  apply (rejected_iff_before_ClosedUntil scenario_tripped).
  intros _. vm_compute. split; [reflexivity | split; discriminate].
Defined.

(** *** Failures in a row *)


Section Streak.
Context {U : Type}.
Variable b0 : breaker.
Variable clk : nat -> Time.
Variable f : operation U.
Hypothesis limit_range : 1 <= limit b0 <= maxInt64.
Hypothesis clk_window : forall i j, Sub (clk j) (clk i) < failInterval b0.
Hypothesis f_fails : forall v, fst (f v) <> None.



End Streak.



End BreakerRuns.

(** ** Blocklist: keys, frames and round trips *)

Module BlocklistFrames.
Import Go Blocklist GoFacts BlocklistSpec.
Local Open Scope Z_scope.

(** *** Keys *)

Lemma generateKey_inj (a b : Address) :
  valid_address a -> valid_address b -> generateKey a = generateKey b -> a = b.
Proof.
  intros Ha Hb E.
  pose proof (unmarshalKey_generateKey a Ha) as Ua.
  pose proof (unmarshalKey_generateKey b Hb) as Ub.
  rewrite E in Ua. congruence.
Qed.

(** X15. [unmarshalKey] undoes [generateKey]: the key of an address has
    the blocklist prefix and parses back to the address without error, so
    that distinct addresses have distinct keys. *)
Theorem key_round_trip (a b : Address) :
  valid_address a -> valid_address b ->
  HasPrefix (generateKey a) keyPrefix = true /\
  unmarshalKey (generateKey a) = (a, None) /\
  (generateKey a = generateKey b -> a = b).
Proof.
  intros Ha Hb. split; [apply HasPrefix_generateKey|].
  split; [apply unmarshalKey_generateKey; exact Ha|].
  apply generateKey_inj; assumption.
Qed.

Lemma key_round_trip_witness :
  HasPrefix (generateKey peerA) keyPrefix = true /\
  unmarshalKey (generateKey peerA) = (peerA, None) /\
  (generateKey peerA = generateKey peerB -> peerA = peerB).
Proof.
  apply (key_round_trip peerA peerB); repeat constructor; lia.
Defined.

(** *** What a lookup depends on *)

(** [get] reads the failure plan of [Get] and one entry. *)
Lemma stored_ext (s s' : StateStorer) (k : string) :
  getErr s' k = getErr s k -> items s' !! k = items s !! k ->
  stored s' k = stored s k.
Proof.
  intros Hg Hi. unfold stored, get, bind, store_Get, ret, world_of; simpl.
  rewrite Hg, Hi.
  destruct (getErr s k); [reflexivity|].
  destruct (items s !! k) as [e|]; [|reflexivity].
  destruct (ParseDuration (Duration e)) as [d [err|]]; reflexivity.
Qed.

Lemma stored_found (s : StateStorer) (k : string) ts d :
  getErr s k = None ->
  items s !! k = Some {| Timestamp := ts; Duration := Duration_String d |} ->
  stored s k = (ts, d, None).
Proof.
  intros Hg Hi. unfold stored, get, bind, store_Get, ret, world_of; simpl.
  rewrite Hg, Hi. reflexivity.
Qed.

Lemma stored_missing (s : StateStorer) (k : string) :
  getErr s k = None -> items s !! k = None ->
  stored s k = (zeroTime, -1, Some ErrNotFound).
Proof.
  intros Hg Hi. unfold stored, get, bind, store_Get, ret, world_of; simpl.
  rewrite Hg, Hi. reflexivity.
Qed.

Lemma stored_present (s : StateStorer) (k : string) ts d :
  stored s k = (ts, d, None) -> exists e, items s !! k = Some e.
Proof.
  unfold stored, get, bind, store_Get, ret, world_of; simpl.
  destruct (getErr s k); [discriminate|].
  destruct (items s !! k) as [e|]; [eauto | discriminate].
Qed.

(** *** Frames *)

(** [Add] writes under the key of its address only. *)
Lemma Add_store (a : Address) (d : Go.Duration) (w : world) :
  getErr (store (snd (Add a d w))) = getErr (store w) /\
  forall k, k <> generateKey a ->
    items (store (snd (Add a d w))) !! k = items (store w) !! k.
Proof.
  rewrite Add_unfold.
  assert (P : forall d0 : Go.Duration,
            getErr (store (snd (add_entry (generateKey a) d0 d w))) = getErr (store w) /\
            forall k, k <> generateKey a ->
              items (store (snd (add_entry (generateKey a) d0 d w))) !! k =
              items (store w) !! k).
  { intros d0. rewrite add_entry_unfold. unfold store_Put. cbn [timeNow snd store].
    destruct (putErr (store w) (generateKey a)); cbn [snd store set_store set_items getErr items].
    - auto.
    - split; [reflexivity|]. intros k Hk. apply lookup_insert_ne. congruence. }
  destruct (stored (store w) (generateKey a)) as [[ts d0] [err|]]; [|apply P].
  destruct (bool_decide (err = ErrNotFound)); [apply P | auto].
Qed.

(** [Exists] deletes under the key of its address only. *)
Lemma Exists_store (a : Address) (w : world) :
  getErr (store (snd (Exists a w))) = getErr (store w) /\
  forall k, k <> generateKey a ->
    items (store (snd (Exists a w))) !! k = items (store w) !! k.
Proof.
  rewrite Exists_unfold.
  destruct (stored (store w) (generateKey a)) as [[ts d0] [err|]].
  - destruct (bool_decide (err = ErrNotFound)); auto.
  - destruct (expired _ ts d0); [|auto].
    unfold store_Delete. cbn [timeNow snd store].
    destruct (deleteErr (store w) (generateKey a));
      cbn [snd store set_store set_items getErr items]; [auto|].
    split; [reflexivity|]. intros k Hk. apply lookup_delete_ne. congruence.
Qed.

(** X16. Neither [Add] nor [Exists] on one address changes what the
    blocklist reads for another address, whether the call succeeds or
    fails. *)
Theorem other_addresses_untouched (a b : Address) (d : Go.Duration) (w : world) :
  valid_address a -> valid_address b -> a <> b ->
  stored (store (snd (Add a d w))) (generateKey b) = stored (store w) (generateKey b) /\
  stored (store (snd (Exists a w))) (generateKey b) = stored (store w) (generateKey b).
Proof.
  intros Ha Hb Hne.
  assert (Hk : generateKey b <> generateKey a).
  { intros E. apply Hne. symmetry. apply generateKey_inj; assumption. }
  destruct (Add_store a d w) as [G1 I1]. destruct (Exists_store a w) as [G2 I2].
  split; apply stored_ext; try (rewrite ?G1, ?G2; reflexivity); auto.
Qed.

Lemma other_addresses_untouched_witness :
  let w := world_at store_A10_B0 (t0 + 11 * minute) in
  stored (store (snd (Add peerA hour w))) (generateKey peerB) =
    stored (store w) (generateKey peerB) /\
  stored (store (snd (Exists peerA w))) (generateKey peerB) =
    stored (store w) (generateKey peerB).
Proof.
  intros w. apply (other_addresses_untouched peerA peerB hour w).
  - repeat constructor; lia.
  - repeat constructor; lia.
  - discriminate.
Defined.

(** *** [Add], then [Exists] *)

(** X17. After [Add(a, d)] with [d >= 0] has succeeded on a store whose
    [Get] does not fail for the key, [Exists(a)] answers true at every
    clock reading no more than [d] after the one [Add] took, and at every
    reading when [d] is 0. *)
Theorem Add_then_Exists (a : Address) (d : Go.Duration) (w w2 : world) :
  0 <= d ->
  fst (Add a d w) = None ->
  getErr (store w) (generateKey a) = None ->
  store w2 = store (snd (Add a d w)) ->
  d = 0 \/ Sub (clock w2 (ticks w2)) (clock w (ticks w)) <= d ->
  fst (Exists a w2) = (true, None).
Proof.
  intros Hd Hok Hg Hs Hwithin.
  set (key := generateKey a) in *.
  assert (Heff : exists eff, (eff = 0 \/ (d <> 0 /\ d <= eff)) /\
            stored (store (snd (Add a d w))) key = (clock w (ticks w), eff, None)).
  { revert Hok. rewrite Add_unfold. fold key.
    assert (P : forall d0 : Go.Duration,
              fst (add_entry key d0 d w) = None ->
              exists eff, (eff = 0 \/ (d <> 0 /\ d <= eff)) /\
                stored (store (snd (add_entry key d0 d w))) key =
                  (clock w (ticks w), eff, None)).
    { intros d0. rewrite add_entry_unfold. intros Hput.
      destruct (store_Put_stored _ _ _ Hput) as [Hi _].
      eexists. split; [|apply stored_found; [|exact Hi]].
      - destruct (Z.ltb_spec d d0), (Z.eqb_spec d 0), (Z.eqb_spec d0 0);
          cbn [andb orb negb]; lia.
      - revert Hput. unfold store_Put. cbn [timeNow snd store].
        destruct (putErr (store w) key); [discriminate|]. intros _. exact Hg. }
    destruct (stored (store w) key) as [[ts d0] [err|]]; [|apply P].
    destruct (bool_decide (err = ErrNotFound)); [apply P | discriminate]. }
  destruct Heff as (eff & He & Hst).
  rewrite Exists_unfold. fold key. rewrite Hs, Hst.
  assert (E : expired (clock w2 (ticks w2)) (clock w (ticks w)) eff = false).
  { apply expired_false. lia. }
  rewrite E. reflexivity.
Qed.

Lemma Add_then_Exists_witness :
  fst (Exists peerA (world_at store_A10 (t0 + 5 * minute))) = (true, None).
Proof.
  apply (Add_then_Exists peerA (10 * minute) (world_at emptyStore t0)
           (world_at store_A10 (t0 + 5 * minute))).
  - vm_compute. discriminate.
  - vm_compute. reflexivity.
  - reflexivity.
  - reflexivity.
  - right. vm_compute. discriminate.
Defined.

(** *** After expiry *)

(** X18. Once [Exists] has found the entry of an address expired and
    deleted it, the address is not found: a later [Exists] answers false
    without reading the clock or touching the store, and a later successful
    [Add] stores the requested duration as for an address never blocked. *)
Theorem Exists_after_expiry (a : Address) (w w2 : world) ts d :
  stored (store w) (generateKey a) = (ts, d, None) ->
  expired (clock w (ticks w)) ts d = true ->
  getErr (store w) (generateKey a) = None ->
  deleteErr (store w) (generateKey a) = None ->
  store w2 = store (snd (Exists a w)) ->
  Exists a w2 = ((false, None), w2) /\
  forall d', fst (Add a d' w2) = None ->
    items (store (snd (Add a d' w2))) !! generateKey a =
      Some {| Timestamp := clock w2 (ticks w2);
              Duration := Duration_String (if d' <? -1 then -1 else d') |}.
Proof.
  intros Hst Hex Hg Hd Hs.
  set (key := generateKey a) in *.
  assert (Hmiss : stored (store w2) key = (zeroTime, -1, Some ErrNotFound)).
  { rewrite Hs. apply stored_missing.
    - destruct (Exists_store a w) as [G _]. rewrite G. exact Hg.
    - rewrite Exists_unfold. fold key. rewrite Hst, Hex. cbn [snd].
      apply store_Delete_gone. exact Hd. }
  split.
  - rewrite Exists_unfold. fold key. rewrite Hmiss. reflexivity.
  - intros d'. rewrite Add_unfold. fold key. rewrite Hmiss.
    rewrite bool_decide_eq_true_2 by reflexivity. rewrite add_entry_unfold.
    intros Hput. destruct (store_Put_stored _ _ _ Hput) as [Hi _]. rewrite Hi.
    repeat f_equal.
    destruct (Z.ltb_spec d' (-1)), (Z.eqb_spec d' 0); cbn [andb orb negb Z.eqb]; lia.
Qed.

Lemma Exists_after_expiry_witness :
  let w := world_at store_A10 (t0 + 11 * minute) in
  let w2 := world_at (store (snd (Exists peerA w))) (t0 + 12 * minute) in
  Exists peerA w2 = ((false, None), w2) /\
  forall d', fst (Add peerA d' w2) = None ->
    items (store (snd (Add peerA d' w2))) !! generateKey peerA =
      Some {| Timestamp := clock w2 (ticks w2);
              Duration := Duration_String (if d' <? -1 then -1 else d') |}.
Proof.
  intros w w2. apply (Exists_after_expiry peerA w w2 t0 (10 * minute)).
  - vm_compute. reflexivity.
  - vm_compute. reflexivity.
  - reflexivity.
  - reflexivity.
  - reflexivity.
Defined.

(** *** [Peers] under a clock that stands still *)

Lemma unexpired_peers_ext (s : StateStorer) (clk clk' : nat -> Time) (keys : list string) :
  (forall n, clk n = clk' n) ->
  forall t, unexpired_peers s clk t keys = unexpired_peers s clk' t keys.
Proof.
  intros E. induction keys as [|k keys IH]; intros t; cbn [unexpired_peers]; [reflexivity|].
  destruct (stored s k) as [[ts d] e]. rewrite E, !IH. reflexivity.
Qed.

(** No visit fails exactly when every key parses and every entry reads. *)
Lemma first_visit_error_none (s : StateStorer) (keys : list string) :
  first_visit_error s keys = None <->
  forall k, k ∈ keys -> snd (unmarshalKey k) = None /\ snd (stored s k) = None.
Proof.
  induction keys as [|k keys IH]; cbn [first_visit_error].
  - split; [intros _ k H; inversion H | reflexivity].
  - destruct (snd (unmarshalKey k)) eqn:Hu.
    + split; [discriminate|]. intros H. destruct (H k) as [H1 _]; [left|].
      congruence.
    + destruct (snd (stored s k)) eqn:Hs.
      * split; [discriminate|]. intros H. destruct (H k) as [_ H2]; [left|].
        congruence.
      * rewrite IH. split.
        -- intros H k' Hin. apply elem_of_cons in Hin. destruct Hin as [->|Hin]; auto.
        -- intros H k' Hin. apply H. right. exact Hin.
Qed.

(** The keys [Iterate] visits: those under the prefix that hold an entry. *)
Lemma visited_keys (s : StateStorer) (k : string) :
  k ∈ map fst (entries_with_prefix keyPrefix s) <->
  HasPrefix k keyPrefix = true /\ exists e, items s !! k = Some e.
Proof.
  unfold entries_with_prefix. rewrite list_elem_of_fmap. split.
  - intros ([k' e] & -> & Hin). apply list_elem_of_filter in Hin.
    destruct Hin as [Hp Hin]. apply elem_of_map_to_list in Hin.
    cbn [fst] in *. split; [exact Hp | eauto].
  - intros (Hp & e & He). exists (k, e). split; [reflexivity|].
    apply list_elem_of_filter. split; [exact Hp|]. apply elem_of_map_to_list. exact He.
Qed.

(** A successful [Peers] under a clock standing at [now]: no visit failed,
    and the list is the one of the unexpired entries at [now]. *)
Lemma Peers_still_clock (w : world) (now : Time) :
  (forall n, clock w n = now) ->
  snd (fst (Peers w)) = None ->
  let keys := map fst (entries_with_prefix keyPrefix (store w)) in
  first_visit_error (store w) keys = None /\
  fst (fst (Peers w)) = unexpired_peers (store w) (fun _ => now) (ticks w) keys.
Proof.
  intros Hclk Hok keys. destruct (Peers_outcome w) as [_ Hout]. cbn zeta in Hout.
  fold keys in Hout. rewrite Hout in Hok |- *.
  destruct (first_visit_error (store w) keys); [discriminate|].
  destruct (iterateErr (store w)); [discriminate|]. cbn [fst snd].
  split; [reflexivity|]. apply unexpired_peers_ext. exact Hclk.
Qed.



(** X20. One key under the prefix that does not parse to an address, or
    one entry under the prefix that cannot be read, makes [Peers] fail as a
    whole: it returns an error and no peer at all. *)
Theorem Peers_fails_on_one_bad_entry (w : world) (k : string) (e : entry) :
  items (store w) !! k = Some e ->
  HasPrefix k keyPrefix = true ->
  snd (unmarshalKey k) <> None \/ snd (stored (store w) k) <> None ->
  exists err, fst (Peers w) = ([], Some err).
Proof.
  intros Hi Hp Hbad. destruct (Peers_outcome w) as [_ Hout]. cbn zeta in Hout.
  rewrite Hout.
  destruct (first_visit_error (store w) _) as [err|] eqn:Hfe; [eauto|].
  exfalso. destruct (proj1 (first_visit_error_none _ _) Hfe k) as [H1 H2].
  - apply visited_keys. eauto.
  - tauto.
Qed.

Lemma Peers_fails_on_one_bad_entry_witness :
  exists err, fst (Peers (world_at store_malformed t0)) = ([], Some err).
Proof.
  apply (Peers_fails_on_one_bad_entry (world_at store_malformed t0)
           (generateKey peerA) malformed_entry).
  - vm_compute. reflexivity.
  - vm_compute. reflexivity.
  - right. vm_compute. discriminate.
Defined.

(** X21. With the clock standing still, an address that [Exists] reports
    blocked is listed by [Peers] whenever [Peers] succeeds. *)
Theorem Exists_implies_listed (a : Address) (w : world) (now : Time) :
  valid_address a ->
  (forall n, clock w n = now) ->
  fst (Exists a w) = (true, None) ->
  snd (fst (Peers w)) = None ->
  {| PeerAddress := a |} ∈ fst (fst (Peers w)).
Proof.
  intros Ha Hclk Hex Hok. destruct (Peers_still_clock w now Hclk Hok) as [_ ->].
  apply unexpired_peers_elem. exists (generateKey a).
  revert Hex. rewrite Exists_unfold.
  destruct (stored (store w) (generateKey a)) as [[ts d] [err|]] eqn:Hst.
  - destruct (bool_decide (err = ErrNotFound)); discriminate.
  - rewrite Hclk. destruct (expired now ts d) eqn:Hx; [discriminate|]. intros _.
    cbn [fst snd]. rewrite (unmarshalKey_generateKey a Ha). cbn [fst].
    repeat split; [|exact Hx].
    apply visited_keys. split; [apply HasPrefix_generateKey|].
    exact (stored_present _ _ _ _ Hst).
Qed.

Lemma Exists_implies_listed_witness :
  {| PeerAddress := peerA |} ∈ fst (fst (Peers (world_at store_A10 t0))).
Proof.
  apply (Exists_implies_listed peerA (world_at store_A10 t0) t0).
  - repeat constructor; lia.
  - intros n. reflexivity.
  - vm_compute. reflexivity.
  - vm_compute. reflexivity.
Defined.

End BlocklistFrames.
